(** * ColorAllocator: a shallow embedding of
    [src/core/configuration/ColorAllocator.ts]

    The allocator is a class with five mutable fields; its methods are
    embedded as functions from the instance before the call to the outcome
    of the call paired with the instance after it. An exception does not roll
    back what the method wrote before throwing, so the instance after a
    [Throw] is the instance as the method left it.

    What the file imports from elsewhere ([simpleHash], [PseudoRandom], the
    per-team color tables, [ColoredTeams], the [colord] and [colorjs.io]
    libraries) is gathered in the class [Imports]; every definition and
    theorem is stated for an arbitrary instance of it.

    Two parts of the code are embedded a second time, each for what the
    first embedding cannot say: [swap] on indices that are arbitrary numbers
    (module [Js]), and the class with its arrays as objects in a store that
    several allocators and their callers share (module [Heap]). Each is
    proved to agree with the first embedding where both apply. *)

From Stdlib Require Import QArith Qround Qabs Lqa.
From stdpp Require Import gmap strings list fin_maps.

Open Scope Z_scope.

(** ** Exceptions and outcomes *)

(** The three ways a call in this file can throw. [IndexOutOfBounds idx len]
    is swap's [Error(`Index: ${idx} out of bounds for array of length: ${len}`)],
    [NoAssignedColors] is the selector's [Error("No assigned colors")] and
    [UndefinedReceiver] is the [TypeError] of a method call on [undefined]. *)
Inductive Error : Type :=
  | IndexOutOfBounds (idx len : Z)
  | NoAssignedColors
  | UndefinedReceiver.

Inductive Result (A : Type) : Type :=
  | Ok (a : A)
  | Throw (e : Error).
Arguments Ok {A} a.
Arguments Throw {A} e.

Definition raises {A : Type} (r : Result A) : Prop :=
  match r with Ok _ => False | Throw _ => True end.

#[global] Instance Error_eq_dec : EqDecision Error.
Proof. solve_decision. Defined.

(** ** Arrays *)

(** [array[i]] for a JS number [i] holding an integer: [None] is [undefined]. *)
Definition array_get {T : Type} (array : list T) (i : Z) : option T :=
  if decide (i < 0) then None else array !! Z.to_nat i.

(** [array[i] = v] for an index inside the array. *)
Definition array_set {T : Type} (array : list T) (i : Z) (v : T) : list T :=
  <[Z.to_nat i := v]> array.

Definition len {T : Type} (array : list T) : Z := Z.of_nat (length array).

Lemma array_get_Some {T : Type} (array : list T) (i : Z) :
  0 <= i < len array -> is_Some (array_get array i).
Proof.
  intros [H0 H1]. unfold array_get, len in *.
  rewrite decide_False by lia. apply lookup_lt_is_Some. lia.
Qed.

Lemma array_get_None {T : Type} (array : list T) (i : Z) :
  array_get array i = None <-> i < 0 \/ len array <= i.
Proof.
  unfold array_get, len. case_decide.
  - split; [auto | done].
  - rewrite lookup_ge_None. lia.
Qed.

Lemma array_get_lookup {T : Type} (array : list T) (i : Z) :
  0 <= i -> array_get array i = array !! Z.to_nat i.
Proof. intros. unfold array_get. by rewrite decide_False by lia. Qed.

Lemma len_cons {T : Type} (x : T) (array : list T) :
  len (x :: array) = len array + 1.
Proof. unfold len. cbn [length]. lia. Qed.

Lemma len_app {T : Type} (a b : list T) : len (a ++ b) = len a + len b.
Proof. unfold len. rewrite length_app. lia. Qed.

Lemma len_nonneg {T : Type} (array : list T) : 0 <= len array.
Proof. unfold len. lia. Qed.

Lemma array_set_len {T : Type} (array : list T) (i : Z) (v : T) :
  len (array_set array i v) = len array.
Proof. unfold len, array_set. by rewrite length_insert. Qed.

(** ** swap *)

Section Swap.
Context {T : Type}.

(** [swap(array, x, y)] as [assignColor] calls it: on an array that holds
    no [undefined] and with indices that are integers. The array is mutated
    in place, so the result is the outcome together with the array after the
    call. Both bounds checks come before the first write. After them both
    reads are defined; the last two branches of the match are there for
    totality only (see [swap_in_bounds]). The method on arbitrary numbers is
    [Js.swap] below; [swap_on_plain_array] shows that the two agree here. *)
Definition swap (array : list T) (x y : Z) : Result unit * list T :=
  if decide (x >= len array \/ x < 0) then
    (Throw (IndexOutOfBounds x (len array)), array)
  else if decide (y >= len array \/ y < 0) then
    (Throw (IndexOutOfBounds y (len array)), array)
  else
    match array_get array x, array_get array y with
    | Some temp, Some ay => (Ok tt, array_set (array_set array x ay) y temp)
    | _, _ => (Ok tt, array)
    end.

Lemma swap_in_bounds (array : list T) (x y : Z) :
  0 <= x < len array -> 0 <= y < len array ->
  exists temp ay,
    array_get array x = Some temp /\ array_get array y = Some ay /\
    swap array x y = (Ok tt, array_set (array_set array x ay) y temp).
Proof.
  intros Hx Hy.
  destruct (array_get_Some array x Hx) as [temp Ht].
  destruct (array_get_Some array y Hy) as [ay Hay].
  exists temp, ay. repeat split; [done | done |].
  unfold swap. rewrite !decide_False by lia. by rewrite Ht, Hay.
Qed.

Lemma swap_throws (array : list T) (x y : Z) :
  raises (swap array x y).1 <-> ~ (0 <= x < len array /\ 0 <= y < len array).
Proof.
  unfold swap. repeat case_decide; simpl; try (split; [lia | done]).
  split; [| lia]. intros Hr [Hx Hy].
  destruct (swap_in_bounds array x y Hx Hy) as (temp & ay & Ht & Hay & _).
  by rewrite Ht, Hay in Hr.
Qed.

Lemma swap_len (array : list T) (x y : Z) :
  len (swap array x y).2 = len array.
Proof.
  unfold swap. repeat case_decide; simpl; try done.
  destruct (array_get array x), (array_get array y); simpl;
    by rewrite ?array_set_len.
Qed.

(** The array after a swap holds the same elements as before. *)
Lemma swap_Permutation (array : list T) (x y : Z) :
  (swap array x y).2 ≡ₚ array.
Proof.
  unfold swap. repeat case_decide; simpl; try done.
  destruct (array_get array x) as [temp|] eqn:Hx; [| done].
  destruct (array_get array y) as [ay|] eqn:Hy; [| done]. simpl.
  rewrite array_get_lookup in Hx, Hy by lia. unfold array_set.
  destruct (decide (Z.to_nat x = Z.to_nat y)) as [Heq | Hne].
  - rewrite Heq in *. rewrite list_insert_insert_eq.
    by rewrite list_insert_id.
  - apply Permutation_inj. split.
    + by rewrite !length_insert.
    + exists (fun i => if decide (i = Z.to_nat x) then Z.to_nat y
                       else if decide (i = Z.to_nat y) then Z.to_nat x
                       else i).
      split.
      * intros i j. repeat case_decide; lia.
      * intros i. repeat case_decide; subst.
        -- rewrite list_lookup_insert_ne by done.
           rewrite list_lookup_insert_eq; [done |].
           by apply lookup_lt_Some in Hx.
        -- rewrite list_lookup_insert_eq; [done |].
           rewrite length_insert. by apply lookup_lt_Some in Hy.
        -- by rewrite !list_lookup_insert_ne.
Qed.

End Swap.

(** ** swap on arbitrary numbers *)

(** [swap] is typed [(array: Type[], x: number, y: number)]: nothing keeps a
    caller from passing a number that is not an integer, or an array that
    holds [undefined]. This module embeds the method on all of these. *)
Module Js.

(** A JS number as far as indexing can tell numbers apart: an integer ([-0]
    is [Int 0]), a finite non-integer given by its floor and the binary
    digits of its fractional part, [NaN], or an infinity. Two numbers name
    the same property of an object exactly when they are equal here. *)
Inductive num : Type :=
  | Int (z : Z)
  | Frac (floor : Z) (digits : positive)
  | NaN
  | PosInf
  | NegInf.

#[global] Instance num_eq_dec : EqDecision num.
Proof. solve_decision. Defined.

#[global] Instance num_countable : Countable num.
Proof.
  refine (inj_countable'
    (fun x => match x with
              | Int z => inl z
              | Frac z p => inr (inl (z, p))
              | NaN => inr (inr 0%nat)
              | PosInf => inr (inr 1%nat)
              | NegInf => inr (inr 2%nat)
              end)
    (fun s => match s with
              | inl z => Int z
              | inr (inl (z, p)) => Frac z p
              | inr (inr 0%nat) => NaN
              | inr (inr 1%nat) => PosInf
              | inr (inr _) => NegInf
              end) _).
  by intros [].
Defined.

(** [x >= n] and [x < n] for an integer [n]. A non-integer compares like
    its floor; every comparison with [NaN] is false. *)
Definition ge (x : num) (n : Z) : bool :=
  match x with
  | Int z | Frac z _ => bool_decide (n <= z)
  | NaN => false
  | PosInf => true
  | NegInf => false
  end.

Definition lt (x : num) (n : Z) : bool :=
  match x with
  | Int z | Frac z _ => bool_decide (z < n)
  | NaN => false
  | PosInf => false
  | NegInf => true
  end.

(** An array object: the values at its indices ([None] is [undefined]) and
    its other properties, keyed by the number that names them. *)
Record array (T : Type) : Type := {
  items : list (option T);
  props : gmap num (option T)
}.
Arguments items {T} _.
Arguments props {T} _.

(** [array.length] *)
Definition alength {T : Type} (a : array T) : Z := Z.of_nat (length (items a)).

(** The array index a number names, if it names one. *)
Definition index_of (x : num) : option nat :=
  match x with
  | Int z => if decide (0 <= z) then Some (Z.to_nat z) else None
  | _ => None
  end.

(** [array[x]] *)
Definition get {T : Type} (a : array T) (x : num) : option T :=
  match index_of x with
  | Some i => mjoin (items a !! i)
  | None => mjoin (props a !! x)
  end.

(** [array[x] = v]. Writing at an index past the end lengthens the array;
    writing at a number that is no index sets a property and leaves the
    indexed values alone. *)
Definition set {T : Type} (a : array T) (x : num) (v : option T) : array T :=
  match index_of x with
  | Some i =>
      {| items := <[i := v]>
                    (items a ++ replicate (S i - length (items a)) None);
         props := props a |}
  | None => {| items := items a; props := <[x := v]> (props a) |}
  end.

(** What a call of [swap] does: return, or throw the error that names an
    index and the length. *)
Inductive outcome : Type :=
  | Returned
  | Thrown (index : num) (length : Z).

(** [swap(array, x, y)] *)
Definition swap {T : Type} (a : array T) (x y : num) : outcome * array T :=
  if ge x (alength a) || lt x 0 then (Thrown x (alength a), a)
  else if ge y (alength a) || lt y 0 then (Thrown y (alength a), a)
  else
    let temp := get a x in
    let a := set a x (get a y) in
    let a := set a y temp in
    (Returned, a).

(** An array without [undefined] and without other properties. *)
Definition plain {T : Type} (l : list T) : array T :=
  {| items := Some <$> l; props := ∅ |}.

(** [x] is a number in [0, n). *)
Definition within (x : num) (n : Z) : Prop :=
  match x with
  | Int z | Frac z _ => 0 <= z < n
  | NaN | PosInf | NegInf => False
  end.

#[global] Instance within_dec (x : num) (n : Z) : Decision (within x n).
Proof. destruct x; simpl; apply _. Defined.

End Js.

Lemma Js_guard_passes (x : Js.num) (n : Z) :
  Js.ge x n || Js.lt x 0 = false <-> x = Js.NaN \/ Js.within x n.
Proof.
  destruct x as [z | z p | | |]; simpl.
  - rewrite orb_false_iff, !bool_decide_eq_false.
    split; [intros [? ?]; right; lia | intros [? | ?]; [done | lia]].
  - rewrite orb_false_iff, !bool_decide_eq_false.
    split; [intros [? ?]; right; lia | intros [? | ?]; [done | lia]].
  - split; [by left | done].
  - split; [done | by intros [? | ?]].
  - split; [done | by intros [? | ?]].
Qed.

Lemma Js_get_set {T : Type} (a : Js.array T) (x k : Js.num) (v : option T) :
  Js.get (Js.set a x v) k = if decide (x = k) then v else Js.get a k.
Proof.
  unfold Js.get, Js.set.
  destruct (Js.index_of x) as [i |] eqn:Hx, (Js.index_of k) as [j |] eqn:Hk;
    simpl.
  - assert (Hij : x = k <-> i = j).
    { destruct x, k; simpl in *; try done. repeat case_decide; try done.
      injection Hx as <-. injection Hk as <-. split; [by intros [= ->] |].
      intros ?. f_equal. lia. }
    case_decide as Hxk.
    + apply Hij in Hxk as <-. rewrite list_lookup_insert_eq; [done |].
      rewrite length_app, length_replicate. lia.
    + rewrite list_lookup_insert_ne by (by rewrite <- Hij).
      destruct (decide (j < length (Js.items a))%nat) as [Hlt | Hge].
      * by rewrite lookup_app_l.
      * rewrite (lookup_ge_None_2 (Js.items a)) by lia.
        rewrite lookup_app_r by lia.
        destruct (replicate _ None !! _) as [w |] eqn:Hw; [| done].
        by apply lookup_replicate in Hw as [-> _].
  - rewrite decide_False; [done |]. intros <-. congruence.
  - rewrite decide_False; [done |]. intros <-. congruence.
  - rewrite lookup_insert. by case_decide.
Qed.

Lemma Js_alength_set {T : Type} (a : Js.array T) (x : Js.num) (v : option T) :
  x = Js.NaN \/ Js.within x (Js.alength a) ->
  Js.alength (Js.set a x v) = Js.alength a.
Proof.
  intros Hx. unfold Js.set, Js.alength in *.
  destruct x as [z | z p | | |]; simpl in *; try done.
  destruct Hx as [? | Hx]; [done |]. rewrite decide_True by lia. simpl.
  rewrite length_insert, length_app, length_replicate. lia.
Qed.

(** When neither guard fires, [swap] returns and every read of the array
    afterwards is the read before with [x] and [y] exchanged. *)
Lemma Js_swap_reads {T : Type} (a : Js.array T) (x y : Js.num) :
  x = Js.NaN \/ Js.within x (Js.alength a) ->
  y = Js.NaN \/ Js.within y (Js.alength a) ->
  (Js.swap a x y).1 = Js.Returned /\
  Js.alength (Js.swap a x y).2 = Js.alength a /\
  forall k, Js.get (Js.swap a x y).2 k =
            if decide (y = k) then Js.get a x
            else if decide (x = k) then Js.get a y
            else Js.get a k.
Proof.
  intros Hx Hy. unfold Js.swap.
  rewrite (proj2 (Js_guard_passes x _) Hx), (proj2 (Js_guard_passes y _) Hy).
  simpl. split; [done |]. split.
  - rewrite Js_alength_set; rewrite Js_alength_set; done.
  - intros k. by rewrite !Js_get_set.
Qed.

Lemma Js_swap_thrown {T : Type} (a : Js.array T) (x y : Js.num) :
  ~ ((x = Js.NaN \/ Js.within x (Js.alength a)) /\
     (y = Js.NaN \/ Js.within y (Js.alength a))) ->
  (Js.swap a x y).2 = a /\
  (Js.swap a x y).1 =
    Js.Thrown (if decide (x = Js.NaN \/ Js.within x (Js.alength a))
               then y else x) (Js.alength a).
Proof.
  intros Hout. unfold Js.swap.
  destruct (Js.ge x (Js.alength a) || Js.lt x 0) eqn:Hgx.
  - rewrite decide_False; [done |].
    intros Hx. apply Js_guard_passes in Hx. congruence.
  - apply Js_guard_passes in Hgx. rewrite decide_True by done.
    destruct (Js.ge y (Js.alength a) || Js.lt y 0) eqn:Hgy; [done |].
    apply Js_guard_passes in Hgy. by destruct Hout.
Qed.

(** On integer indices the indexed values are swapped as a list is, and the
    other properties are left alone. *)
Lemma Js_swap_items {T : Type} (a : Js.array T) (x y : Z) :
  Js.items (Js.swap a (Js.Int x) (Js.Int y)).2 = (swap (Js.items a) x y).2 /\
  Js.props (Js.swap a (Js.Int x) (Js.Int y)).2 = Js.props a /\
  ((Js.swap a (Js.Int x) (Js.Int y)).1 = Js.Returned /\
   (swap (Js.items a) x y).1 = Ok tt \/
   exists i, (Js.swap a (Js.Int x) (Js.Int y)).1
               = Js.Thrown (Js.Int i) (Js.alength a) /\
             (swap (Js.items a) x y).1
               = Throw (IndexOutOfBounds i (Js.alength a))).
Proof.
  unfold Js.swap, swap, Js.alength. fold (len (Js.items a)). simpl.
  destruct (decide (x >= len (Js.items a) \/ x < 0)) as [Hx | Hx].
  { rewrite (proj2 (orb_true_iff _ _));
      [| rewrite !bool_decide_eq_true; lia].
    simpl. split; [done |]. split; [done |]. right. eauto. }
  rewrite (proj2 (orb_false_iff _ _));
    [| rewrite !bool_decide_eq_false; lia].
  destruct (decide (y >= len (Js.items a) \/ y < 0)) as [Hy | Hy].
  { rewrite (proj2 (orb_true_iff _ _));
      [| rewrite !bool_decide_eq_true; lia].
    simpl. split; [done |]. split; [done |]. right. eauto. }
  rewrite (proj2 (orb_false_iff _ _));
    [| rewrite !bool_decide_eq_false; lia].
  destruct (swap_in_bounds (Js.items a) x y) as (temp & ay & Ht & Hay & _);
    [lia | lia |].
  rewrite Ht, Hay. simpl.
  rewrite array_get_lookup in Ht, Hay by lia.
  unfold Js.get, Js.set. simpl. rewrite !decide_True by lia. simpl.
  rewrite Ht, Hay. simpl.
  assert (Hxn : (S (Z.to_nat x) - length (Js.items a) = 0)%nat)
    by (unfold len in *; lia).
  assert (Hyn : (S (Z.to_nat y) - length (Js.items a) = 0)%nat)
    by (unfold len in *; lia).
  rewrite Hxn. simpl. rewrite app_nil_r, length_insert, Hyn. simpl.
  rewrite app_nil_r. unfold array_set. auto.
Qed.

Lemma swap_fmap {A B : Type} (f : A -> B) (l : list A) (x y : Z) :
  (swap (f <$> l) x y).2 = f <$> (swap l x y).2 /\
  (swap (f <$> l) x y).1 = (swap l x y).1.
Proof.
  unfold swap. assert (Hlen : len (f <$> l) = len l)
    by (unfold len; by rewrite length_fmap).
  rewrite Hlen. repeat case_decide; simpl; try done.
  destruct (swap_in_bounds l x y) as (temp & ay & Ht & Hay & _);
    [lia | lia |].
  rewrite Ht, Hay. unfold array_get in *. rewrite !decide_False in * by lia.
  rewrite !list_lookup_fmap, Ht, Hay. simpl. unfold array_set.
  by rewrite !list_fmap_insert.
Qed.

(** ** JS numbers that occur as color distances *)

(** A distance is a finite number or [Infinity] (the seed of the [reduce] in
    [minDeltaE]). Finite doubles are rationals and [>] and [Math.min] on them
    are exact, so a finite number is modelled by a [Q]. *)
Inductive number : Type :=
  | Finite (q : Q)
  | Infinity.

(** [a > b] *)
Definition number_gt (a b : number) : bool :=
  match a, b with
  | Finite x, Finite y => negb (Qle_bool x y)
  | Finite _, Infinity => false
  | Infinity, Finite _ => true
  | Infinity, Infinity => false
  end.

(** [Math.min(a, b)] *)
Definition Math_min (a b : number) : number :=
  if number_gt a b then b else a.

(** The order [number_gt] decides, as a proposition. *)
Definition number_lt (a b : number) : Prop :=
  match a, b with
  | Finite x, Finite y => (x < y)%Q
  | Finite _, Infinity => True
  | Infinity, _ => False
  end.

Definition number_le (a b : number) : Prop :=
  match a, b with
  | Finite x, Finite y => (x <= y)%Q
  | _, Infinity => True
  | Infinity, Finite _ => False
  end.

Lemma number_gt_true (a b : number) : number_gt a b = true <-> number_lt b a.
Proof.
  destruct a as [x|], b as [y|]; simpl; try (split; [done | done]).
  rewrite negb_true_iff, <- not_true_iff_false, Qle_bool_iff.
  split; [apply Qnot_le_lt | apply Qlt_not_le].
Qed.

Lemma number_gt_false (a b : number) : number_gt a b = false <-> number_le a b.
Proof.
  destruct a as [x|], b as [y|]; simpl; try (split; [done | done]).
  by rewrite negb_false_iff, Qle_bool_iff.
Qed.

Lemma number_lt_irrefl (a : number) : ~ number_lt a a.
Proof. destruct a; simpl; [apply Qlt_irrefl | tauto]. Qed.

Lemma number_lt_trans (a b c : number) :
  number_lt a b -> number_lt b c -> number_lt a c.
Proof.
  destruct a, b, c; simpl; try tauto. apply Qlt_trans.
Qed.

Lemma number_le_lt_trans (a b c : number) :
  number_le a b -> number_lt b c -> number_lt a c.
Proof.
  destruct a, b, c; simpl; try tauto. apply Qle_lt_trans.
Qed.

Lemma number_lt_le_trans (a b c : number) :
  number_lt a b -> number_le b c -> number_lt a c.
Proof.
  destruct a, b, c; simpl; try tauto. apply Qlt_le_trans.
Qed.

Lemma number_le_trans (a b c : number) :
  number_le a b -> number_le b c -> number_le a c.
Proof.
  destruct a, b, c; simpl; try tauto. apply Qle_trans.
Qed.

Lemma number_lt_le (a b : number) : number_lt a b -> number_le a b.
Proof. destruct a, b; simpl; try tauto. apply Qlt_le_weak. Qed.

Lemma number_le_refl (a : number) : number_le a a.
Proof. destruct a; simpl; [apply Qle_refl | done]. Qed.

Lemma Math_min_le_l (a b : number) : number_le (Math_min a b) a.
Proof.
  unfold Math_min. destruct (number_gt a b) eqn:E.
  - apply number_lt_le. by apply number_gt_true.
  - apply number_le_refl.
Qed.

Lemma Math_min_le_r (a b : number) : number_le (Math_min a b) b.
Proof.
  unfold Math_min. destruct (number_gt a b) eqn:E.
  - apply number_le_refl.
  - by apply number_gt_false.
Qed.

Lemma Math_min_cases (a b : number) : Math_min a b = a \/ Math_min a b = b.
Proof. unfold Math_min. destruct (number_gt a b); auto. Qed.

(** ** What the file imports *)

(** What [colord.toLab()] returns (the [lab] plugin's [LabaColor]). *)
Record LabaColor : Type := { lab_l : Q; lab_a : Q; lab_b : Q; lab_alpha : Q }.

(** What [colord.toRgb()] returns and [colord(...)] accepts. *)
Record RgbaColor : Type := { rgba_r : Q; rgba_g : Q; rgba_b : Q; rgba_a : Q }.

(** [Team] is a string ([assignColor(team)] takes it as an identity). *)
Definition Team : Type := string.

(** The [ColoredTeams] table of team names the [switch] compares against. *)
Record ColoredTeamsT : Type := {
  Red : Team; Blue : Team; Teal : Team; Purple : Team; Yellow : Team;
  Orange : Team; Green : Team; Bot : Team; Humans : Team; Nations : Team
}.

(** Everything [ColorAllocator.ts] takes from other modules.
    - [Colord] is the [colord] library's color object, [toRgb] and [toLab]
      its methods and [colord] the library's constructor function;
    - [Color] is [colorjs.io]'s color object, [Color_new space coords] is
      [new Color(space, coords)] and [Color_deltaE c1 c2 method] is
      [c1.deltaE(c2, method)];
    - [simpleHash] is the string hash of [../Util];
    - [PseudoRandom_new seed] is [new PseudoRandom(seed)] and
      [nextInt rand min max] the first [rand.nextInt(min, max)] of such a
      generator;
    - [ColoredTeams] and the eight tables are the imports from [../game/Game]
      and [./Colors]. *)
Class Imports : Type := {
  Colord : Type;
  toRgb : Colord -> RgbaColor;
  toLab : Colord -> LabaColor;
  colord : RgbaColor -> Colord;
  Color : Type;
  Color_new : string -> list Q -> Color;
  Color_deltaE : Color -> Color -> string -> Q;
  simpleHash : string -> Z;
  PseudoRandom : Type;
  PseudoRandom_new : Z -> PseudoRandom;
  nextInt : PseudoRandom -> Z -> Z -> Z;
  ColoredTeams : ColoredTeamsT;
  blueTeamColors : list Colord;
  botTeamColors : list Colord;
  greenTeamColors : list Colord;
  orangeTeamColors : list Colord;
  purpleTeamColors : list Colord;
  redTeamColors : list Colord;
  tealTeamColors : list Colord;
  yellowTeamColors : list Colord
}.

(** A value read from an array or a map at run time: a color or
    [undefined] ([None]). *)
Abbreviation value := (option Colord).

(** ** The distinct-color selector *)

Section Selector.
Context {imports : Imports}.

Definition toColor (colord : Colord) : Color :=
  let lab := toLab colord in
  Color_new "lab" [lab_l lab; lab_a lab; lab_b lab].

Definition deltaE2000 (c1 c2 : Color) : number :=
  Finite (Color_deltaE c1 c2 "2000").

Definition minDeltaE (lab1 : Color) (assignedLabColors : list Color) : number :=
  fold_left (fun min assigned => Math_min min (deltaE2000 lab1 assigned))
            assignedLabColors Infinity.

(** The [for] loop of [selectDistinctColorIndex], from index [i] on:
    [rest] is what is left of [availableColors] at [i]; the value is
    [maxIndex] when the loop ends. *)
Fixpoint scanFrom (assignedLabColors : list Color) (rest : list Colord)
    (i : nat) (maxDeltaE : number) (maxIndex : nat) : nat :=
  match rest with
  | [] => maxIndex
  | color :: rest' =>
      let deltaE := minDeltaE (toColor color) assignedLabColors in
      if number_gt deltaE maxDeltaE
      then scanFrom assignedLabColors rest' (S i) deltaE i
      else scanFrom assignedLabColors rest' (S i) maxDeltaE maxIndex
  end.

(** The declared return type is [number | null]: [None] is [null]. *)
Definition selectDistinctColorIndex
    (availableColors assignedColors : list Colord) : Result (option nat) :=
  if decide (length assignedColors = 0%nat) then Throw NoAssignedColors
  else
    let assignedLabColors := map toColor assignedColors in
    Ok (Some (scanFrom assignedLabColors availableColors 0 (Finite 0) 0)).

(** The distance from a candidate to the closest assigned color. *)
Definition closest (assignedColors : list Colord) (c : Colord) : number :=
  minDeltaE (toColor c) (map toColor assignedColors).

Lemma fold_min_le_init (lab1 : Color) (cs : list Color) (init : number) :
  number_le
    (fold_left (fun min c => Math_min min (deltaE2000 lab1 c)) cs init) init.
Proof.
  revert init. induction cs as [| c cs IH]; intros init; simpl.
  - apply number_le_refl.
  - eapply number_le_trans; [apply IH | apply Math_min_le_l].
Qed.

(** [minDeltaE] is a lower bound of the distances to the assigned colors. *)
Lemma minDeltaE_le (lab1 : Color) (cs : list Color) (c : Color) :
  c ∈ cs -> number_le (minDeltaE lab1 cs) (deltaE2000 lab1 c).
Proof.
  unfold minDeltaE. generalize Infinity.
  induction cs as [| c' cs IH]; intros init Hin; [by apply elem_of_nil in Hin |].
  apply elem_of_cons in Hin as [-> | Hin]; simpl.
  - eapply number_le_trans; [apply fold_min_le_init | apply Math_min_le_r].
  - by apply IH.
Qed.

(** [minDeltaE] is one of those distances, or the seed. *)
Lemma fold_min_attained (lab1 : Color) (cs : list Color) (init : number) :
  let m := fold_left (fun min c => Math_min min (deltaE2000 lab1 c)) cs init in
  m = init \/ exists c, c ∈ cs /\ m = deltaE2000 lab1 c.
Proof.
  revert init. induction cs as [| c cs IH]; intros init; simpl; [by left |].
  destruct (IH (Math_min init (deltaE2000 lab1 c))) as [-> | (c' & Hc' & ->)].
  - destruct (Math_min_cases init (deltaE2000 lab1 c)) as [-> | ->].
    + by left.
    + right. exists c. split; [apply list_elem_of_here | done].
  - right. exists c'. split; [by apply list_elem_of_further | done].
Qed.

Lemma minDeltaE_attained (lab1 : Color) (cs : list Color) :
  cs <> [] -> exists c, c ∈ cs /\ minDeltaE lab1 cs = deltaE2000 lab1 c.
Proof.
  intros Hne. destruct cs as [| c0 cs]; [done |].
  unfold minDeltaE. simpl.
  destruct (fold_min_attained lab1 cs (Math_min Infinity (deltaE2000 lab1 c0)))
    as [-> | (c & Hc & ->)].
  - exists c0. split; [apply list_elem_of_here | done].
  - exists c. split; [by apply list_elem_of_further | done].
Qed.

(** What the loop computes: either nothing in [rest] beats the running
    maximum and [maxIndex] is kept, or the result is the first position of
    [rest] that holds the greatest value, and that value beats the running
    maximum. *)
Lemma scanFrom_spec (assignedLab : list Color) (rest : list Colord)
    (i : nat) (maxDeltaE : number) (maxIndex : nat) :
  let f c := minDeltaE (toColor c) assignedLab in
  let r := scanFrom assignedLab rest i maxDeltaE maxIndex in
  (r = maxIndex /\ forall c, c ∈ rest -> number_le (f c) maxDeltaE) \/
  (exists k c, rest !! k = Some c /\ r = (i + k)%nat /\
     number_lt maxDeltaE (f c) /\
     (forall j cj, rest !! j = Some cj -> number_le (f cj) (f c)) /\
     (forall j cj, rest !! j = Some cj -> (j < k)%nat -> number_lt (f cj) (f c))).
Proof.
  intros f. revert i maxDeltaE maxIndex.
  induction rest as [| color rest IH]; intros i maxDeltaE maxIndex; simpl.
  - left. split; [done |]. intros c Hc. by apply elem_of_nil in Hc.
  - fold (f color). destruct (number_gt (f color) maxDeltaE) eqn:Hgt.
    + apply number_gt_true in Hgt.
      destruct (IH (S i) (f color) i)
        as [[-> Hall] | (k & c & Hk & -> & Hlt & Hmax & Hfirst)].
      * right. exists 0%nat, color. repeat split; [f_equal; lia | done | |].
        -- intros [| j] cj Hj; simpl in Hj.
           ++ injection Hj as <-. apply number_le_refl.
           ++ apply Hall. by eapply list_elem_of_lookup_2.
        -- intros j cj _ Hj. lia.
      * right. exists (S k), c. repeat split; [done | lia | | |].
        -- by eapply number_lt_trans.
        -- intros [| j] cj Hj; simpl in Hj.
           ++ injection Hj as <-. by apply number_lt_le.
           ++ by eapply Hmax.
        -- intros [| j] cj Hj Hjk; simpl in Hj.
           ++ by injection Hj as <-.
           ++ eapply Hfirst; [done | lia].
    + apply number_gt_false in Hgt.
      destruct (IH (S i) maxDeltaE maxIndex)
        as [[-> Hall] | (k & c & Hk & -> & Hlt & Hmax & Hfirst)].
      * left. split; [done |]. intros c Hc.
        apply elem_of_cons in Hc as [-> | Hc]; [done | by apply Hall].
      * right. exists (S k), c. repeat split; [done | lia | done | |].
        -- intros [| j] cj Hj; simpl in Hj.
           ++ injection Hj as <-. apply number_lt_le.
              by eapply number_le_lt_trans.
           ++ by eapply Hmax.
        -- intros [| j] cj Hj Hjk; simpl in Hj.
           ++ injection Hj as <-. by eapply number_le_lt_trans.
           ++ eapply Hfirst; [done | lia].
Qed.

End Selector.


(** ** The allocator *)

(** [Math.round]: the nearest integer, a tie going up. *)
Definition Math_round (x : Q) : Q := inject_Z (Qfloor (x + (1 # 2))%Q).

(** [a % b] on integers: [None] is [NaN] (a zero divisor); otherwise the
    remainder has the sign of [a]. *)
Definition js_rem (a b : Z) : option Z :=
  if decide (b = 0) then None else Some (Z.rem a b).

Section Allocator.
Context {imports : Imports}.

(** The five private fields. [sampleWOReplace] is a JS number; it is an
    integer throughout. *)
Record ColorAllocator : Type := {
  availableColors : list Colord;
  fallbackColors : list Colord;
  assigned : gmap string value;
  teamPlayerColors : gmap string value;
  sampleWOReplace : Z
}.

Definition set_availableColors (v : list Colord) (this : ColorAllocator) :=
  {| availableColors := v; fallbackColors := fallbackColors this;
     assigned := assigned this; teamPlayerColors := teamPlayerColors this;
     sampleWOReplace := sampleWOReplace this |}.

Definition set_sampleWOReplace (v : Z) (this : ColorAllocator) :=
  {| availableColors := availableColors this;
     fallbackColors := fallbackColors this;
     assigned := assigned this; teamPlayerColors := teamPlayerColors this;
     sampleWOReplace := v |}.

Definition set_assigned (v : gmap string value) (this : ColorAllocator) :=
  {| availableColors := availableColors this;
     fallbackColors := fallbackColors this;
     assigned := v; teamPlayerColors := teamPlayerColors this;
     sampleWOReplace := sampleWOReplace this |}.

Definition set_teamPlayerColors (v : gmap string value) (this : ColorAllocator) :=
  {| availableColors := availableColors this;
     fallbackColors := fallbackColors this;
     assigned := assigned this; teamPlayerColors := v;
     sampleWOReplace := sampleWOReplace this |}.

(** [new ColorAllocator(colors, fallback)]. The spreads copy the two arrays;
    lists are values, so the copies are the lists themselves. *)
Definition constructor (colors fallback : list Colord) : ColorAllocator :=
  {| availableColors := colors; fallbackColors := fallback;
     assigned := ∅; teamPlayerColors := ∅; sampleWOReplace := 0 |}.

(** [assignColor(id)]. [Map.has] is [is_Some] of the lookup. *)
Definition assignColor (id : string) (this : ColorAllocator)
    : Result value * ColorAllocator :=
  match assigned this !! id with
  | Some c => (Ok c, this)
  | None =>
      let this :=
        if decide (sampleWOReplace this = len (availableColors this))
        then set_sampleWOReplace 0
               (set_availableColors (fallbackColors this) this)
        else this in
      let rand := PseudoRandom_new (simpleHash id) in
      let randIndex :=
        nextInt rand 0 (len (availableColors this) - sampleWOReplace this) in
      let color := array_get (availableColors this) randIndex in
      let this := set_sampleWOReplace (sampleWOReplace this + 1) this in
      let '(r, array) :=
        swap (availableColors this) randIndex
             (len (availableColors this) - sampleWOReplace this) in
      let this := set_availableColors array this in
      match r with
      | Throw e => (Throw e, this)
      | Ok _ => (Ok color, set_assigned (<[id := color]> (assigned this)) this)
      end
  end.

(** [getTeamColorVariations(team)]: the cases are tried in the order of the
    [switch]; the default case draws a color for the team name. *)
Definition getTeamColorVariations (team : Team) (this : ColorAllocator)
    : Result (list value) * ColorAllocator :=
  if decide (team = Blue ColoredTeams) then (Ok (Some <$> blueTeamColors), this)
  else if decide (team = Red ColoredTeams) then (Ok (Some <$> redTeamColors), this)
  else if decide (team = Teal ColoredTeams) then (Ok (Some <$> tealTeamColors), this)
  else if decide (team = Purple ColoredTeams) then (Ok (Some <$> purpleTeamColors), this)
  else if decide (team = Yellow ColoredTeams) then (Ok (Some <$> yellowTeamColors), this)
  else if decide (team = Orange ColoredTeams) then (Ok (Some <$> orangeTeamColors), this)
  else if decide (team = Green ColoredTeams) then (Ok (Some <$> greenTeamColors), this)
  else if decide (team = Bot ColoredTeams) then (Ok (Some <$> botTeamColors), this)
  else if decide (team = Humans ColoredTeams) then (Ok (Some <$> blueTeamColors), this)
  else if decide (team = Nations ColoredTeams) then (Ok (Some <$> redTeamColors), this)
  else
    let '(r, this) := assignColor team this in
    match r with
    | Throw e => (Throw e, this)
    | Ok c => (Ok [c], this)
    end.

(** The three channel assignments of [assignTeamColor]. *)
Definition roundRgb (rgb : RgbaColor) : RgbaColor :=
  {| rgba_r := Math_round (rgba_r rgb); rgba_g := Math_round (rgba_g rgb);
     rgba_b := Math_round (rgba_b rgb); rgba_a := rgba_a rgb |}.

(** [assignTeamColor(team)]. [teamColors[0].toRgb()] is a [TypeError] when
    [teamColors[0]] is [undefined]. *)
Definition assignTeamColor (team : Team) (this : ColorAllocator)
    : Result Colord * ColorAllocator :=
  let '(r, this) := getTeamColorVariations team this in
  match r with
  | Throw e => (Throw e, this)
  | Ok teamColors =>
      match mjoin (array_get teamColors 0) with
      | None => (Throw UndefinedReceiver, this)
      | Some c0 => (Ok (colord (roundRgb (toRgb c0))), this)
      end
  end.

(** [assignTeamPlayerColor(team, playerId)]. An index that is [NaN] or
    outside the list reads [undefined], which is stored and returned like a
    color. *)
Definition assignTeamPlayerColor (team : Team) (playerId : string)
    (this : ColorAllocator) : Result value * ColorAllocator :=
  match teamPlayerColors this !! playerId with
  | Some c => (Ok c, this)
  | None =>
      let '(r, this) := getTeamColorVariations team this in
      match r with
      | Throw e => (Throw e, this)
      | Ok teamColors =>
          let hashValue := simpleHash playerId in
          let colorIndex := js_rem hashValue (len teamColors) in
          let color := mjoin (colorIndex ≫= array_get teamColors) in
          (Ok color,
           set_teamPlayerColors (<[playerId := color]> (teamPlayerColors this))
                                this)
      end
  end.

(** ** Call histories *)

(** A call of one of the three public methods. *)
Inductive Call : Type :=
  | CallAssignColor (id : string)
  | CallAssignTeamColor (team : Team)
  | CallAssignTeamPlayerColor (team : Team) (playerId : string).

(** The instance after a call, whether it returned or threw. *)
Definition after (c : Call) (this : ColorAllocator) : ColorAllocator :=
  match c with
  | CallAssignColor id => (assignColor id this).2
  | CallAssignTeamColor team => (assignTeamColor team this).2
  | CallAssignTeamPlayerColor team playerId =>
      (assignTeamPlayerColor team playerId this).2
  end.

Definition afterAll (history : list Call) (this : ColorAllocator)
    : ColorAllocator :=
  fold_left (fun this c => after c this) history this.

(** [assignColor] for each identity in turn, stopping at the first throw:
    the colors returned so far, and the instance. *)
Fixpoint assignColors (ids : list string) (this : ColorAllocator)
    : Result (list value) * ColorAllocator :=
  match ids with
  | [] => (Ok [], this)
  | id :: ids' =>
      let '(r, this) := assignColor id this in
      match r with
      | Throw e => (Throw e, this)
      | Ok c =>
          let '(rs, this) := assignColors ids' this in
          match rs with
          | Throw e => (Throw e, this)
          | Ok cs => (Ok (c :: cs), this)
          end
      end
  end.

(** ** Facts about the allocator *)

(** The state after the exhaustion test of [assignColor] has fired. *)
Definition recycled (this : ColorAllocator) : ColorAllocator :=
  set_sampleWOReplace 0 (set_availableColors (fallbackColors this) this).

Lemma assignColor_hit (id : string) (this : ColorAllocator) (v : value) :
  assigned this !! id = Some v -> assignColor id this = (Ok v, this).
Proof. intros H. unfold assignColor. by rewrite H. Qed.

(** On exhaustion a new identity is served from the recycled instance. *)
Lemma assignColor_exhausted (id : string) (this : ColorAllocator) :
  assigned this !! id = None ->
  sampleWOReplace this = len (availableColors this) ->
  assignColor id this = assignColor id (recycled this).
Proof.
  intros Hid Hk. unfold assignColor. simpl. rewrite Hid.
  rewrite (decide_True _ _ Hk). fold (recycled this).
  destruct (decide (0 = len (fallbackColors this))) as [H0 | H0]; [| done].
  destruct this as [av fb asg tp k]. simpl in *. unfold recycled. simpl. done.
Qed.

(** One draw from a non-empty unused prefix: the color is read at the drawn
    index of the prefix and moved to the front of the used suffix. *)
Lemma assignColor_draw (id : string) (this : ColorAllocator)
    (unused used : list Colord) :
  (forall rand lo hi, lo < hi -> lo <= nextInt rand lo hi < hi) ->
  assigned this !! id = None ->
  availableColors this = unused ++ used ->
  sampleWOReplace this = len used ->
  unused <> [] ->
  exists c unused',
    array_get unused
      (nextInt (PseudoRandom_new (simpleHash id)) 0 (len unused)) = Some c /\
    unused' ++ [c] ≡ₚ unused /\
    assignColor id this =
      (Ok (Some c),
       {| availableColors := unused' ++ c :: used;
          fallbackColors := fallbackColors this;
          assigned := <[id := Some c]> (assigned this);
          teamPlayerColors := teamPlayerColors this;
          sampleWOReplace := len used + 1 |}).
Proof.
  intros Hrange Hid Hav Hk Hne.
  destruct (exists_last Hne) as (u0 & ul & ->).
  assert (Hlu : len (u0 ++ [ul]) = len u0 + 1).
  { unfold len. rewrite length_app. simpl. lia. }
  assert (Hlen : len (availableColors this) = len u0 + 1 + len used).
  { rewrite Hav. unfold len. rewrite !length_app. simpl. lia. }
  assert (Hu0 : 0 <= len u0) by (unfold len; lia).
  assert (Hused : 0 <= len used) by (unfold len; lia).
  unfold assignColor. rewrite Hid.
  rewrite decide_False by lia. simpl.
  rewrite Hlen, Hk, Hlu.
  replace (len u0 + 1 + len used - len used) with (len u0 + 1) by lia.
  set (r := nextInt (PseudoRandom_new (simpleHash id)) 0 (len u0 + 1)).
  assert (Hr : 0 <= r < len u0 + 1) by (apply Hrange; lia).
  replace (len u0 + 1 + len used - (len used + 1)) with (len u0) by lia.
  destruct (swap_in_bounds (availableColors this) r (len u0))
    as (c & ay & Hc & Hay & Hswap); [lia | lia |].
  rewrite Hswap, Hc. clear Hswap.
  unfold array_set. rewrite array_get_lookup in Hc, Hay by lia.
  rewrite array_get_lookup by lia.
  replace (Z.to_nat (len u0)) with (length u0) in * by (unfold len; lia).
  assert (Hrn : (Z.to_nat r <= length u0)%nat) by (unfold len in *; lia).
  generalize dependent (Z.to_nat r). intros rn Hc Hrn.
  rewrite Hav in *. clear Hav Hid Hk Hlen.
  rewrite <- (assoc_L (++)) in *. simpl in *.
  rewrite list_lookup_middle in Hay by done. injection Hay as <-.
  exists c.
  destruct (decide (rn = length u0)) as [-> | Hrne].
  - (* the drawn index is the last unused one *)
    rewrite list_lookup_middle in Hc by done. injection Hc as <-.
    exists u0. split; [| split].
    + by rewrite list_lookup_middle.
    + done.
    + unfold set_availableColors, set_sampleWOReplace, set_assigned. simpl.
      rewrite list_insert_insert_eq.
      by rewrite list_insert_id by (by rewrite list_lookup_middle).
  - (* the drawn index is before the last unused one *)
    assert (Hrlt : (rn < length u0)%nat) by lia.
    rewrite lookup_app_l in Hc by done.
    exists (<[rn := ul]> u0). split; [| split].
    + by rewrite lookup_app_l.
    + rewrite <- (list_insert_id u0 rn c Hc) at 2.
      apply Permutation_inj. split.
      * rewrite !length_app, !length_insert. done.
      * exists (fun i => if decide (i = rn) then length u0
                         else if decide (i = length u0) then rn
                         else i).
        split.
        -- intros i j. repeat case_decide; lia.
        -- intros i. repeat case_decide; subst.
           ++ rewrite lookup_app_l by (by rewrite length_insert).
              rewrite list_lookup_insert_eq by done.
              rewrite (list_lookup_middle _ _ _ (length u0));
                [done | by rewrite length_insert].
           ++ rewrite (list_lookup_middle _ _ _ (length u0));
                [| by rewrite length_insert].
              rewrite lookup_app_l by (by rewrite length_insert).
              by rewrite list_lookup_insert_eq.
           ++ destruct (decide (i < length u0)%nat).
              ** rewrite !lookup_app_l by (by rewrite ?length_insert).
                 by rewrite !list_lookup_insert_ne.
              ** rewrite !lookup_ge_None_2; [done | |];
                   rewrite length_app, ?length_insert; simpl; lia.
    + unfold set_availableColors, set_sampleWOReplace, set_assigned. simpl.
      rewrite insert_app_l by done.
      rewrite <- (length_insert u0 rn ul) at 1.
      replace (length (<[rn:=ul]> u0)) with (length (<[rn:=ul]> u0) + 0)%nat
        by lia.
      by rewrite insert_app_r.
Qed.

(** *** What a call leaves alone *)

(** [assignColor] touches neither the fallback palette nor the team-player
    table, and only ever adds to the assignment table. *)
Lemma assignColor_frame (id : string) (this : ColorAllocator) :
  let this' := (assignColor id this).2 in
  fallbackColors this' = fallbackColors this /\
  teamPlayerColors this' = teamPlayerColors this /\
  (forall id' v, assigned this !! id' = Some v -> assigned this' !! id' = Some v).
Proof.
  unfold assignColor.
  destruct (assigned this !! id) as [v |] eqn:Hid; simpl; [done |].
  case_decide; simpl;
    match goal with |- context [swap ?a ?x ?y] => destruct (swap a x y) as [[u | e] array] end;
    simpl; repeat split; try done;
    intros id' v Hv; rewrite lookup_insert_ne; [done | congruence | done | congruence].
Qed.

(** When [assignColor] returns, the table maps the identity to the value
    returned. *)
Lemma assignColor_records (id : string) (this : ColorAllocator) (v : value) :
  (assignColor id this).1 = Ok v -> assigned (assignColor id this).2 !! id = Some v.
Proof.
  unfold assignColor.
  destruct (assigned this !! id) as [v' |] eqn:Hid; simpl.
  - by intros [= <-].
  - case_decide; simpl;
      match goal with |- context [swap ?a ?x ?y] => destruct (swap a x y) as [[u | e] array] end;
      simpl; try done; intros [= <-]; by rewrite lookup_insert_eq.
Qed.

Lemma getTeamColorVariations_frame (team : Team) (this : ColorAllocator) :
  let this' := (getTeamColorVariations team this).2 in
  fallbackColors this' = fallbackColors this /\
  teamPlayerColors this' = teamPlayerColors this /\
  (forall id' v, assigned this !! id' = Some v -> assigned this' !! id' = Some v).
Proof.
  unfold getTeamColorVariations. repeat case_decide; simpl; try done.
  pose proof (assignColor_frame team this) as Hf.
  destruct (assignColor team this) as [[c | e] this']; simpl in *; done.
Qed.

Lemma assignTeamColor_frame (team : Team) (this : ColorAllocator) :
  let this' := (assignTeamColor team this).2 in
  fallbackColors this' = fallbackColors this /\
  teamPlayerColors this' = teamPlayerColors this /\
  (forall id' v, assigned this !! id' = Some v -> assigned this' !! id' = Some v).
Proof.
  unfold assignTeamColor.
  pose proof (getTeamColorVariations_frame team this) as Hf.
  destruct (getTeamColorVariations team this) as [[teamColors | e] this'];
    simpl in *; [| done].
  destruct (mjoin (array_get teamColors 0)); done.
Qed.

Lemma assignTeamPlayerColor_frame (team : Team) (playerId : string)
    (this : ColorAllocator) :
  let this' := (assignTeamPlayerColor team playerId this).2 in
  fallbackColors this' = fallbackColors this /\
  (forall id' v, assigned this !! id' = Some v -> assigned this' !! id' = Some v) /\
  (forall p v, teamPlayerColors this !! p = Some v ->
               teamPlayerColors this' !! p = Some v).
Proof.
  unfold assignTeamPlayerColor.
  destruct (teamPlayerColors this !! playerId) as [v |] eqn:Hp; simpl; [done |].
  pose proof (getTeamColorVariations_frame team this) as (Hfb & Htp & Has).
  destruct (getTeamColorVariations team this) as [[teamColors | e] this'];
    simpl in *.
  - repeat split; [done | done |]. intros p v Hv.
    rewrite lookup_insert_ne; [by rewrite Htp | congruence].
  - repeat split; [done | done |]. intros p v Hv. by rewrite Htp.
Qed.

(** Entries of either table survive every call, returning or throwing. *)
Lemma after_keeps (c : Call) (this : ColorAllocator) :
  fallbackColors (after c this) = fallbackColors this /\
  (forall id v, assigned this !! id = Some v ->
                assigned (after c this) !! id = Some v) /\
  (forall p v, teamPlayerColors this !! p = Some v ->
               teamPlayerColors (after c this) !! p = Some v).
Proof.
  destruct c as [id | team | team playerId]; simpl.
  - destruct (assignColor_frame id this) as (? & Htp & ?).
    repeat split; [done | done |]. intros p v Hv. by rewrite Htp.
  - destruct (assignTeamColor_frame team this) as (? & Htp & ?).
    repeat split; [done | done |]. intros p v Hv. by rewrite Htp.
  - apply assignTeamPlayerColor_frame.
Qed.

Lemma afterAll_keeps (history : list Call) (this : ColorAllocator) :
  fallbackColors (afterAll history this) = fallbackColors this /\
  (forall id v, assigned this !! id = Some v ->
                assigned (afterAll history this) !! id = Some v) /\
  (forall p v, teamPlayerColors this !! p = Some v ->
               teamPlayerColors (afterAll history this) !! p = Some v).
Proof.
  revert this. induction history as [| c history IH]; intros this; simpl;
    [done |].
  destruct (IH (after c this)) as (Hfb & Has & Htp).
  destruct (after_keeps c this) as (Hfb' & Has' & Htp').
  repeat split; [congruence | auto | auto].
Qed.

(** *** A run of draws *)

(** Drawing for pairwise-distinct new identities, no more of them than there
    are unused colors: the colors returned are moved, latest first, to the
    front of the used suffix, and together with what stays unused they are
    the unused prefix the run started from. *)
Lemma assignColors_draws (ids : list string) :
  (forall rand lo hi, lo < hi -> lo <= nextInt rand lo hi < hi) ->
  forall (this : ColorAllocator) (unused used : list Colord),
  NoDup ids ->
  (forall id, id ∈ ids -> assigned this !! id = None) ->
  availableColors this = unused ++ used ->
  sampleWOReplace this = len used ->
  (length ids <= length unused)%nat ->
  exists cs unused',
    (assignColors ids this).1 = Ok (Some <$> cs) /\
    length cs = length ids /\
    cs ++ unused' ≡ₚ unused /\
    availableColors (assignColors ids this).2 = unused' ++ reverse cs ++ used /\
    sampleWOReplace (assignColors ids this).2 = len used + len cs /\
    fallbackColors (assignColors ids this).2 = fallbackColors this.
Proof.
  intros Hrange.
  induction ids as [| id ids IH]; intros this unused used Hnd Hfresh Hav Hk Hle.
  - exists [], unused. simpl. repeat split; try done.
    rewrite Hk. unfold len. simpl. lia.
  - apply NoDup_cons in Hnd as [Hnotin Hnd].
    assert (Hne : unused <> []) by (destruct unused; [simpl in Hle; lia | done]).
    destruct (assignColor_draw id this unused used Hrange
                (Hfresh id (list_elem_of_here _ _)) Hav Hk Hne)
      as (c & u1 & _ & Hperm & Hdraw).
    simpl. rewrite Hdraw.
    match goal with |- context [assignColors ids ?st] => set (this1 := st) end.
    assert (Hlen1 : length unused = S (length u1)).
    { rewrite <- Hperm, length_app. simpl. lia. }
    destruct (IH this1 u1 (c :: used)) as (cs & u2 & Hres & Hlcs & Hp2 & Hav2 & Hk2 & Hfb2).
    + done.
    + intros id' Hin. unfold this1. simpl.
      rewrite lookup_insert_ne; [| by intros ->].
      apply Hfresh. by apply list_elem_of_further.
    + done.
    + unfold this1. simpl. by rewrite len_cons.
    + simpl in Hle. lia.
    + destruct (assignColors ids this1) as [[vs | e] this2]; simpl in *; [| done].
      injection Hres as ->.
      exists (c :: cs), u2. repeat split.
      * simpl. by rewrite Hlcs.
      * simpl. rewrite Hp2, <- Hperm. by rewrite Permutation_app_comm.
      * rewrite Hav2, reverse_cons, <- !(assoc_L (++)). done.
      * rewrite Hk2, !len_cons. lia.
      * done.
Qed.

End Allocator.

(** Entries for other identities are as they were. *)
Lemma assignColor_other `{Imports} (id id' : string) (this : ColorAllocator) :
  id <> id' ->
  assigned (assignColor id this).2 !! id' = assigned this !! id'.
Proof.
  intros Hne. unfold assignColor.
  destruct (assigned this !! id) as [v |] eqn:Hid; simpl; [done |].
  case_decide; simpl;
    match goal with |- context [swap ?a ?x ?y] =>
      destruct (swap a x y) as [[u | e] array] end;
    simpl; try done; by rewrite lookup_insert_ne.
Qed.

Lemma assignColors_other `{Imports} (ids : list string) (id' : string)
    (this : ColorAllocator) :
  id' ∉ ids ->
  assigned (assignColors ids this).2 !! id' = assigned this !! id'.
Proof.
  revert this. induction ids as [| id ids IH]; intros this Hnotin; simpl;
    [done |].
  apply not_elem_of_cons in Hnotin as [Hne Hnotin].
  pose proof (assignColor_other id id' this (not_eq_sym Hne)) as Ho.
  destruct (assignColor id this) as [[c | e] this1]; simpl in *; [| done].
  specialize (IH this1 Hnotin).
  destruct (assignColors ids this1) as [[cs | e] this2]; simpl in *; congruence.
Qed.

(** [y] is the integer nearest to [x] (the upper one at a tie). *)
Definition nearest_integer (x y : Q) : Prop :=
  exists z : Z, y = inject_Z z /\ (x - (1 # 2) < y)%Q /\ (y <= x + (1 # 2))%Q.

Lemma Math_round_nearest (x : Q) : nearest_integer x (Math_round x).
Proof.
  exists (Qfloor (x + (1 # 2))). split; [done |]. unfold Math_round.
  pose proof (Qlt_floor (x + (1 # 2))) as Hlt.
  pose proof (Qfloor_le (x + (1 # 2))) as Hle.
  rewrite inject_Z_plus in Hlt. change (inject_Z 1) with 1%Q in Hlt.
  generalize dependent (inject_Z (Qfloor (x + (1 # 2)))). intros q Hlt Hle.
  split; lra.
Qed.

(** ** A concrete set of imports

    A small instance of [Imports] on which the development can be run:
    colors are their RGBA records, the hash adds up character codes, the
    generator's first draw is the seed reduced into the range, and the
    distance of two colors is the sum of the distances of their
    coordinates. *)
Module Sample.

Fixpoint hash (s : string) : Z :=
  match s with
  | EmptyString => 0
  | String a s' => Z.of_N (Ascii.N_of_ascii a) + hash s'
  end.

Definition draw (seed lo hi : Z) : Z := lo + seed mod (hi - lo).

Definition rgb (r g b : Z) : RgbaColor :=
  {| rgba_r := inject_Z r; rgba_g := inject_Z g; rgba_b := inject_Z b;
     rgba_a := 1 |}.

Definition lab (c : RgbaColor) : LabaColor :=
  {| lab_l := rgba_r c; lab_a := rgba_g c; lab_b := rgba_b c;
     lab_alpha := rgba_a c |}.

Fixpoint distance (c1 c2 : list Q) : Q :=
  match c1, c2 with
  | x :: c1', y :: c2' => (Qabs (x - y) + distance c1' c2')%Q
  | _, _ => 0%Q
  end.

Definition teams : ColoredTeamsT :=
  {| Red := "Red"; Blue := "Blue"; Teal := "Teal"; Purple := "Purple";
     Yellow := "Yellow"; Orange := "Orange"; Green := "Green"; Bot := "Bot";
     Humans := "Humans"; Nations := "Nations" |}.

Definition white : RgbaColor := rgb 255 255 255.
Definition black : RgbaColor := rgb 0 0 0.
Definition silver : RgbaColor := rgb 250 250 250.
Definition crimson : RgbaColor := rgb 220 20 60.
Definition navy : RgbaColor := rgb 0 0 128.
Definition olive : RgbaColor := rgb 128 128 0.
Definition sky : RgbaColor :=
  {| rgba_r := 40 # 3; rgba_g := 401 # 2; rgba_b := 255; rgba_a := 1 |}.

Definition imports : Imports :=
  {| Colord := RgbaColor;
     toRgb := fun c => c;
     toLab := lab;
     colord := fun c => c;
     Color := list Q;
     Color_new := fun _ coords => coords;
     Color_deltaE := fun c1 c2 _ => distance c1 c2;
     simpleHash := hash;
     PseudoRandom := Z;
     PseudoRandom_new := fun seed => seed;
     nextInt := draw;
     ColoredTeams := teams;
     blueTeamColors := [sky; navy];
     botTeamColors := [silver];
     greenTeamColors := [olive];
     orangeTeamColors := [crimson; olive];
     purpleTeamColors := [navy; crimson];
     redTeamColors := [crimson];
     tealTeamColors := [navy; olive];
     yellowTeamColors := [olive; silver] |}.

Lemma draw_range (seed lo hi : Z) : lo < hi -> lo <= draw seed lo hi < hi.
Proof.
  intros Hlt. unfold draw.
  pose proof (Z.mod_pos_bound seed (hi - lo)). lia.
Qed.

Lemma distance_nonneg (c1 c2 : list Q) : (0 <= distance c1 c2)%Q.
Proof.
  revert c2. induction c1 as [| x c1 IH]; intros [| y c2]; cbn [distance];
    try apply Qle_refl.
  apply (Qplus_le_compat 0 _ 0); [apply Qabs_nonneg | apply IH].
Qed.

#[global] Instance Q_eq_dec : EqDecision Q.
Proof. solve_decision. Defined.

#[global] Instance RgbaColor_eq_dec : EqDecision RgbaColor.
Proof. solve_decision. Defined.

End Sample.

(** ** The allocator with its arrays in a shared store *)

(** Arrays are objects: the constructor is handed references to the caller's
    two palettes, other allocators may be built from the same two arrays, and
    [swap] writes in place. This module embeds the class once more with the
    arrays in a store of objects and the two palette fields holding
    references, so that sharing can be stated at all. *)
Module Heap.

(** References to array objects. *)
Abbreviation loc := positive.

(** The store of array objects. *)
Abbreviation heap := (gmap loc (list Colord)).

(** The array at a reference (a reference to nothing reads as empty). *)
Definition read `{Imports} (h : heap) (l : loc) : list Colord := default [] (h !! l).

(** A new array object holding [v]. *)
Definition alloc `{Imports} (h : heap) (v : list Colord) : loc * heap :=
  let l := fresh (dom h) in (l, <[l := v]> h).

(** An instance: references to its two arrays, and its other fields. *)
Record Instance `{Imports} : Type := {
  at_availableColors : loc;
  at_fallbackColors : loc;
  its_assigned : gmap string value;
  its_teamPlayerColors : gmap string value;
  its_sampleWOReplace : Z
}.

Abbreviation state := (Instance * heap)%type.

Definition with_availableColors `{Imports} (l : loc) (this : Instance) : Instance :=
  {| at_availableColors := l; at_fallbackColors := at_fallbackColors this;
     its_assigned := its_assigned this;
     its_teamPlayerColors := its_teamPlayerColors this;
     its_sampleWOReplace := its_sampleWOReplace this |}.

Definition with_sampleWOReplace `{Imports} (v : Z) (this : Instance) : Instance :=
  {| at_availableColors := at_availableColors this;
     at_fallbackColors := at_fallbackColors this;
     its_assigned := its_assigned this;
     its_teamPlayerColors := its_teamPlayerColors this;
     its_sampleWOReplace := v |}.

Definition with_assigned `{Imports} (v : gmap string value) (this : Instance) : Instance :=
  {| at_availableColors := at_availableColors this;
     at_fallbackColors := at_fallbackColors this;
     its_assigned := v;
     its_teamPlayerColors := its_teamPlayerColors this;
     its_sampleWOReplace := its_sampleWOReplace this |}.

Definition with_teamPlayerColors `{Imports} (v : gmap string value) (this : Instance)
    : Instance :=
  {| at_availableColors := at_availableColors this;
     at_fallbackColors := at_fallbackColors this;
     its_assigned := its_assigned this;
     its_teamPlayerColors := v;
     its_sampleWOReplace := its_sampleWOReplace this |}.

(** [new ColorAllocator(colors, fallback)]: each spread allocates a new
    array with the contents of the one referred to. *)
Definition constructor `{Imports} (colors fallback : loc) (h : heap) : state :=
  let '(la, h) := alloc h (read h colors) in
  let '(lf, h) := alloc h (read h fallback) in
  ({| at_availableColors := la; at_fallbackColors := lf;
      its_assigned := ∅; its_teamPlayerColors := ∅;
      its_sampleWOReplace := 0 |}, h).

(** [assignColor(id)]: the exhaustion branch allocates a copy of the
    fallback array and points the field at it; [swap] writes the array the
    field points at. *)
Definition assignColor `{Imports} (id : string) (s : state) : Result value * state :=
  let '(this, h) := s in
  match its_assigned this !! id with
  | Some c => (Ok c, (this, h))
  | None =>
      let '(this, h) :=
        if decide (its_sampleWOReplace this
                   = len (read h (at_availableColors this)))
        then
          let '(l, h) := alloc h (read h (at_fallbackColors this)) in
          (with_sampleWOReplace 0 (with_availableColors l this), h)
        else (this, h) in
      let rand := PseudoRandom_new (simpleHash id) in
      let randIndex :=
        nextInt rand 0 (len (read h (at_availableColors this))
                        - its_sampleWOReplace this) in
      let color := array_get (read h (at_availableColors this)) randIndex in
      let this := with_sampleWOReplace (its_sampleWOReplace this + 1) this in
      let '(r, array) :=
        swap (read h (at_availableColors this)) randIndex
             (len (read h (at_availableColors this))
              - its_sampleWOReplace this) in
      let h := <[at_availableColors this := array]> h in
      match r with
      | Throw e => (Throw e, (this, h))
      | Ok _ =>
          (Ok color,
           (with_assigned (<[id := color]> (its_assigned this)) this, h))
      end
  end.

(** [getTeamColorVariations(team)]: the tables are module-level arrays that
    are only ever read, so they are taken by value. *)
Definition getTeamColorVariations `{Imports} (team : Team) (s : state)
    : Result (list value) * state :=
  if decide (team = Blue ColoredTeams) then (Ok (Some <$> blueTeamColors), s)
  else if decide (team = Red ColoredTeams) then (Ok (Some <$> redTeamColors), s)
  else if decide (team = Teal ColoredTeams) then (Ok (Some <$> tealTeamColors), s)
  else if decide (team = Purple ColoredTeams) then (Ok (Some <$> purpleTeamColors), s)
  else if decide (team = Yellow ColoredTeams) then (Ok (Some <$> yellowTeamColors), s)
  else if decide (team = Orange ColoredTeams) then (Ok (Some <$> orangeTeamColors), s)
  else if decide (team = Green ColoredTeams) then (Ok (Some <$> greenTeamColors), s)
  else if decide (team = Bot ColoredTeams) then (Ok (Some <$> botTeamColors), s)
  else if decide (team = Humans ColoredTeams) then (Ok (Some <$> blueTeamColors), s)
  else if decide (team = Nations ColoredTeams) then (Ok (Some <$> redTeamColors), s)
  else
    let '(r, s) := assignColor team s in
    match r with
    | Throw e => (Throw e, s)
    | Ok c => (Ok [c], s)
    end.

Definition assignTeamColor `{Imports} (team : Team) (s : state) : Result Colord * state :=
  let '(r, s) := getTeamColorVariations team s in
  match r with
  | Throw e => (Throw e, s)
  | Ok teamColors =>
      match mjoin (array_get teamColors 0) with
      | None => (Throw UndefinedReceiver, s)
      | Some c0 => (Ok (colord (roundRgb (toRgb c0))), s)
      end
  end.

Definition assignTeamPlayerColor `{Imports} (team : Team) (playerId : string) (s : state)
    : Result value * state :=
  match its_teamPlayerColors s.1 !! playerId with
  | Some c => (Ok c, s)
  | None =>
      let '(r, s) := getTeamColorVariations team s in
      match r with
      | Throw e => (Throw e, s)
      | Ok teamColors =>
          let hashValue := simpleHash playerId in
          let colorIndex := js_rem hashValue (len teamColors) in
          let color := mjoin (colorIndex ≫= array_get teamColors) in
          (Ok color,
           (with_teamPlayerColors
              (<[playerId := color]> (its_teamPlayerColors s.1)) s.1, s.2))
      end
  end.

(** The instance and the store after a call, whether it returned or threw. *)
Definition after `{Imports} (c : Call) (s : state) : state :=
  match c with
  | CallAssignColor id => (assignColor id s).2
  | CallAssignTeamColor team => (assignTeamColor team s).2
  | CallAssignTeamPlayerColor team playerId =>
      (assignTeamPlayerColor team playerId s).2
  end.

(** The arrays only the instance holds a reference to. *)
Definition private `{Imports} (this : Instance) : gset loc :=
  {[at_availableColors this; at_fallbackColors this]}.

(** Two allocators in one store. *)
Record system `{Imports} : Type := {
  first : Instance;
  second : Instance;
  store : heap
}.

(** What happens in such a store: a call on the first allocator, a call on
    the second, or a write by anyone else, to any array or to a new one. *)
Inductive event `{Imports} : Type :=
  | OnFirst (c : Call)
  | OnSecond (c : Call)
  | Write (l : loc) (v : list Colord).

(** Running a schedule. Nobody else holds a reference to an allocator's own
    arrays, so a schedule with a write to one of them cannot happen: it has
    no run. *)
Fixpoint run `{Imports} (schedule : list event) (s : system) : option system :=
  match schedule with
  | [] => Some s
  | OnFirst c :: schedule =>
      let '(this, h) := after c (first s, store s) in
      run schedule {| first := this; second := second s; store := h |}
  | OnSecond c :: schedule =>
      let '(this, h) := after c (second s, store s) in
      run schedule {| first := first s; second := this; store := h |}
  | Write l v :: schedule =>
      if decide (l ∈ private (first s) ∪ private (second s)) then None
      else run schedule {| first := first s; second := second s;
                           store := <[l := v]> (store s) |}
  end.

(** The calls a schedule makes on each allocator, in order. *)
Definition callsOnFirst `{Imports} (schedule : list event) : list Call :=
  omap (fun e => match e with OnFirst c => Some c | _ => None end) schedule.

Definition callsOnSecond `{Imports} (schedule : list event) : list Call :=
  omap (fun e => match e with OnSecond c => Some c | _ => None end) schedule.

(** The instance as the methods see it: its arrays read from the store. *)
Definition view `{Imports} (s : state) : ColorAllocator :=
  {| availableColors := read s.2 (at_availableColors s.1);
     fallbackColors := read s.2 (at_fallbackColors s.1);
     assigned := its_assigned s.1;
     teamPlayerColors := its_teamPlayerColors s.1;
     sampleWOReplace := its_sampleWOReplace s.1 |}.

End Heap.

(** *** The store model and the model by value agree *)

Section HeapFacts.
Context {imports : Imports}.

(** The two array fields refer to two different arrays of the store. *)
Definition Heap_wf (s : Heap.state) : Prop :=
  Heap.at_availableColors s.1 ∈ dom s.2 /\
  Heap.at_fallbackColors s.1 ∈ dom s.2 /\
  Heap.at_availableColors s.1 <> Heap.at_fallbackColors s.1.

(** From [s] to [s']: the store only grows, every array that is not the
    instance's own is as it was, and the instance's own arrays afterwards
    are its own from before or arrays that did not exist. *)
Definition Heap_extends (s s' : Heap.state) : Prop :=
  dom s.2 ⊆ dom s'.2 /\
  (forall l, l ∈ dom s.2 -> l ∉ Heap.private s.1 -> s'.2 !! l = s.2 !! l) /\
  (forall l, l ∈ Heap.private s'.1 -> l ∈ Heap.private s.1 \/ l ∉ dom s.2).

(** A method on the store does what the method by value does on the view. *)
Definition Heap_sim {A : Type}
    (hm : Heap.state -> Result A * Heap.state)
    (pm : ColorAllocator -> Result A * ColorAllocator) : Prop :=
  forall s, Heap_wf s ->
    (hm s).1 = (pm (Heap.view s)).1 /\
    Heap.view (hm s).2 = (pm (Heap.view s)).2 /\
    Heap_wf (hm s).2 /\
    Heap_extends s (hm s).2.

Lemma Heap_read_insert_eq (h : Heap.heap) (l : Heap.loc) (v : list Colord) :
  Heap.read (<[l := v]> h) l = v.
Proof. unfold Heap.read. by rewrite lookup_insert_eq. Qed.

Lemma Heap_read_insert_ne (h : Heap.heap) (l l' : Heap.loc) (v : list Colord) :
  l <> l' -> Heap.read (<[l := v]> h) l' = Heap.read h l'.
Proof. intros. unfold Heap.read. by rewrite lookup_insert_ne. Qed.

Lemma Heap_extends_refl (s : Heap.state) : Heap_extends s s.
Proof. repeat split; auto. Qed.

Lemma Heap_fresh_not_in (h : Heap.heap) : fresh (dom h) ∉ dom h.
Proof. apply is_fresh. Qed.

Lemma Heap_sim_assignColor (id : string) :
  Heap_sim (Heap.assignColor id) (assignColor id).
Proof.
  intros [this h] (Hav & Hfb & Hne). simpl in *.
  unfold Heap.assignColor, assignColor, Heap.view. simpl.
  destruct (Heap.its_assigned this !! id) as [c |] eqn:Hid; simpl.
  { repeat split; auto. }
  pose proof (Heap_fresh_not_in h) as Hfresh.
  destruct (decide (Heap.its_sampleWOReplace this
                    = len (Heap.read h (Heap.at_availableColors this))))
    as [Hfull | Hnot]; simpl.
  - set (l := fresh (dom h)) in *.
    assert (Hlfb : l <> Heap.at_fallbackColors this) by (intros ->; done).
    rewrite !Heap_read_insert_eq.
    destruct (swap (Heap.read h (Heap.at_fallbackColors this)) _ _)
      as [[u | e] array]; simpl;
      rewrite ?Heap_read_insert_eq, ?Heap_read_insert_ne by done;
      (split; [done |]; split; [done |]; split;
       [unfold Heap_wf; simpl; rewrite !dom_insert_L; set_solver |]);
      (split; [simpl; rewrite !dom_insert_L; set_solver |]; simpl; split;
       [ intros l' Hl' _; rewrite !lookup_insert_ne; [done | | ];
         intros <-; done
       | intros l'; unfold Heap.private; simpl; set_solver ]).
  - destruct (swap (Heap.read h (Heap.at_availableColors this)) _ _)
      as [[u | e] array]; simpl;
      rewrite ?Heap_read_insert_eq, ?Heap_read_insert_ne by done;
      (split; [done |]; split; [done |]; split;
       [unfold Heap_wf; simpl; rewrite !dom_insert_L; set_solver |]);
      (split; [simpl; rewrite !dom_insert_L; set_solver |]; simpl; split;
       [ intros l' Hl' Hpriv; rewrite lookup_insert_ne; [done |];
         unfold Heap.private in Hpriv; set_solver
       | intros l'; unfold Heap.private; simpl; set_solver ]).
Qed.

Lemma Heap_sim_getTeamColorVariations (team : Team) :
  Heap_sim (Heap.getTeamColorVariations team) (getTeamColorVariations team).
Proof.
  intros s Hwf. unfold Heap.getTeamColorVariations, getTeamColorVariations.
  repeat case_decide;
    try (split; [done |]; split; [done |]; split;
         [done | apply Heap_extends_refl]).
  destruct (Heap_sim_assignColor team s Hwf) as (Hres & Hview & Hwf' & Hext).
  destruct (Heap.assignColor team s) as [r s'].
  destruct (assignColor team (Heap.view s)) as [r' st']. simpl in *.
  subst r' st'. by destruct r.
Qed.

Lemma Heap_sim_assignTeamColor (team : Team) :
  Heap_sim (Heap.assignTeamColor team) (assignTeamColor team).
Proof.
  intros s Hwf. unfold Heap.assignTeamColor, assignTeamColor.
  destruct (Heap_sim_getTeamColorVariations team s Hwf)
    as (Hres & Hview & Hwf' & Hext).
  destruct (Heap.getTeamColorVariations team s) as [r s'].
  destruct (getTeamColorVariations team (Heap.view s)) as [r' st'].
  simpl in *. subst r' st'. destruct r as [teamColors | e]; [| done].
  by destruct (mjoin (array_get teamColors 0)).
Qed.

Lemma Heap_sim_assignTeamPlayerColor (team : Team) (playerId : string) :
  Heap_sim (Heap.assignTeamPlayerColor team playerId)
           (assignTeamPlayerColor team playerId).
Proof.
  intros s Hwf. unfold Heap.assignTeamPlayerColor, assignTeamPlayerColor.
  change (teamPlayerColors (Heap.view s)) with (Heap.its_teamPlayerColors s.1).
  destruct (Heap.its_teamPlayerColors s.1 !! playerId) as [c |].
  { split; [done |]. split; [done |]. split; [done | apply Heap_extends_refl]. }
  destruct (Heap_sim_getTeamColorVariations team s Hwf)
    as (Hres & Hview & Hwf' & Hext).
  destruct (Heap.getTeamColorVariations team s) as [r s'].
  destruct (getTeamColorVariations team (Heap.view s)) as [r' st'].
  simpl in *. subst r' st'. destruct r as [teamColors | e]; [| done].
  simpl. split; [done |]. split; [done |]. split; [done |].
  destruct Hext as (? & ? & ?). by repeat split.
Qed.

Lemma Heap_after_sim (c : Call) (s : Heap.state) :
  Heap_wf s ->
  Heap.view (Heap.after c s) = after c (Heap.view s) /\
  Heap_wf (Heap.after c s) /\
  Heap_extends s (Heap.after c s).
Proof.
  intros Hwf. destruct c as [id | team | team playerId]; simpl.
  - by destruct (Heap_sim_assignColor id s Hwf) as (_ & ? & ? & ?).
  - by destruct (Heap_sim_assignTeamColor team s Hwf) as (_ & ? & ? & ?).
  - by destruct (Heap_sim_assignTeamPlayerColor team playerId s Hwf)
      as (_ & ? & ? & ?).
Qed.

(** A step that leaves an instance's own arrays alone leaves its view
    alone. *)
Lemma Heap_view_kept (this : Heap.Instance) (h h' : Heap.heap) :
  Heap_wf (this, h) ->
  dom h ⊆ dom h' ->
  (forall l, l ∈ Heap.private this -> h' !! l = h !! l) ->
  Heap.view (this, h') = Heap.view (this, h) /\ Heap_wf (this, h').
Proof.
  intros (Hav & Hfb & Hne) Hdom Hsame. unfold Heap.view, Heap.read. simpl in *.
  rewrite !Hsame by (unfold Heap.private; set_solver).
  split; [done |]. unfold Heap_wf. simpl. set_solver.
Qed.

(** The two allocators of a system are as the model by value has them
    after their calls, and share no array. *)
Definition Heap_inv (s : Heap.system) (st1 st2 : ColorAllocator) : Prop :=
  Heap.view (Heap.first s, Heap.store s) = st1 /\
  Heap.view (Heap.second s, Heap.store s) = st2 /\
  Heap_wf (Heap.first s, Heap.store s) /\
  Heap_wf (Heap.second s, Heap.store s) /\
  Heap.private (Heap.first s) ## Heap.private (Heap.second s).

Lemma Heap_private_in_dom (this : Heap.Instance) (h : Heap.heap) :
  Heap_wf (this, h) -> Heap.private this ⊆ dom h.
Proof. intros (? & ? & _). unfold Heap.private. simpl in *. set_solver. Qed.

Lemma Heap_run_inv (schedule : list Heap.event) :
  forall (s s' : Heap.system) (st1 st2 : ColorAllocator),
  Heap_inv s st1 st2 ->
  Heap.run schedule s = Some s' ->
  Heap_inv s' (afterAll (Heap.callsOnFirst schedule) st1)
              (afterAll (Heap.callsOnSecond schedule) st2).
Proof.
  induction schedule as [| e schedule IH];
    intros s s' st1 st2 (Hv1 & Hv2 & Hwf1 & Hwf2 & Hdisj) Hrun; simpl in Hrun.
  { injection Hrun as <-.
    exact (conj Hv1 (conj Hv2 (conj Hwf1 (conj Hwf2 Hdisj)))). }
  pose proof (Heap_private_in_dom _ _ Hwf1) as Hp1.
  pose proof (Heap_private_in_dom _ _ Hwf2) as Hp2.
  destruct e as [c | c | l v]; simpl.
  - destruct (Heap_after_sim c _ Hwf1) as (Hview & Hwf' & Hd & Hsame & Hpriv).
    destruct (Heap.after c (Heap.first s, Heap.store s)) as [this h] eqn:Hafter.
    simpl in *.
    destruct (Heap_view_kept (Heap.second s) (Heap.store s) h Hwf2 Hd)
      as [Hv2' Hwf2'].
    { intros l Hl. apply Hsame; set_solver. }
    eapply (IH _ s' (after c st1) st2); [| exact Hrun]. repeat split; simpl.
    + by rewrite Hview, Hv1.
    + by rewrite Hv2'.
    + apply Hwf'.
    + apply Hwf'.
    + apply Hwf'.
    + apply Hwf2'.
    + apply Hwf2'.
    + apply Hwf2'.
    + intros l Hl1 Hl2. destruct (Hpriv l Hl1) as [? | ?]; set_solver.
  - destruct (Heap_after_sim c _ Hwf2) as (Hview & Hwf' & Hd & Hsame & Hpriv).
    destruct (Heap.after c (Heap.second s, Heap.store s)) as [this h] eqn:Hafter.
    simpl in *.
    destruct (Heap_view_kept (Heap.first s) (Heap.store s) h Hwf1 Hd)
      as [Hv1' Hwf1'].
    { intros l Hl. apply Hsame; set_solver. }
    eapply (IH _ s' st1 (after c st2)); [| exact Hrun]. repeat split; simpl.
    + by rewrite Hv1'.
    + by rewrite Hview, Hv2.
    + apply Hwf1'.
    + apply Hwf1'.
    + apply Hwf1'.
    + apply Hwf'.
    + apply Hwf'.
    + apply Hwf'.
    + intros l Hl1 Hl2. destruct (Hpriv l Hl2) as [? | ?]; set_solver.
  - case_decide as Hl; [done |].
    destruct (Heap_view_kept (Heap.first s) (Heap.store s)
                (<[l := v]> (Heap.store s)) Hwf1) as [Hv1' Hwf1'].
    { rewrite dom_insert_L. set_solver. }
    { intros l' Hl'. rewrite lookup_insert_ne; [done |]. set_solver. }
    destruct (Heap_view_kept (Heap.second s) (Heap.store s)
                (<[l := v]> (Heap.store s)) Hwf2) as [Hv2' Hwf2'].
    { rewrite dom_insert_L. set_solver. }
    { intros l' Hl'. rewrite lookup_insert_ne; [done |]. set_solver. }
    eapply (IH _ s' st1 st2); [| exact Hrun]. repeat split; simpl;
      try apply Hwf1'; try apply Hwf2'; try done.
    + by rewrite Hv1'.
    + by rewrite Hv2'.
Qed.


(** What the constructor sets up: two new arrays with the contents of the
    caller's, which it leaves alone. *)
Lemma Heap_constructor_view (colors fallback : Heap.loc) (h : Heap.heap)
    (cs fs : list Colord) :
  h !! colors = Some cs ->
  h !! fallback = Some fs ->
  let s := Heap.constructor colors fallback h in
  Heap.view s = constructor cs fs /\
  Heap_wf s /\
  dom h ⊆ dom s.2 /\
  (forall l, l ∈ dom h -> s.2 !! l = h !! l) /\
  Heap.private s.1 ## dom h.
Proof.
  intros Hcs Hfs. unfold Heap.constructor, Heap.alloc. simpl.
  assert (Hrc : Heap.read h colors = cs) by (unfold Heap.read; by rewrite Hcs).
  rewrite !Hrc.
  set (la := fresh (dom h)).
  set (h1 := <[la := cs]> h).
  set (lf := fresh (dom h1)).
  pose proof (Heap_fresh_not_in h) as Hla. fold la in Hla.
  pose proof (Heap_fresh_not_in h1) as Hlf. fold lf in Hlf.
  assert (Hdom1 : dom h1 = {[la]} ∪ dom h) by apply dom_insert_L.
  assert (Hne : la <> lf) by (intros Heq; rewrite <- Heq in Hlf; set_solver).
  assert (Hfin : fallback ∈ dom h) by (by apply elem_of_dom).
  assert (Hread : Heap.read h1 fallback = fs).
  { unfold h1, Heap.read. rewrite lookup_insert_ne by (intros <-; done).
    by rewrite Hfs. }
  rewrite !Hread. unfold Heap.view, Heap_wf, Heap.private. simpl.
  rewrite Heap_read_insert_eq, Heap_read_insert_ne by done.
  unfold h1. rewrite Heap_read_insert_eq.
  split; [done |]. rewrite !dom_insert_L. fold h1.
  split; [set_solver |]. split; [set_solver |]. split; [| set_solver].
  intros l Hl. rewrite lookup_insert_ne by (intros <-; set_solver).
  unfold h1. by rewrite lookup_insert_ne by (intros <-; set_solver).
Qed.

End HeapFacts.

(** * The claims *)

(** ** swap *)

(** C7. The claim fails on the code at an index that is [NaN]: both guards
    compare false, so [swap([10, 20, 30], NaN, 1)] does not throw although
    [NaN] is not in [0, 3); it returns having overwritten the entry at 1 with
    [undefined] and moved 20 to a property named [NaN]. *)
Theorem swap_NaN_index_not_rejected :
  ~ Js.within Js.NaN (Js.alength (Js.plain [10; 20; 30])) /\
  (Js.swap (Js.plain [10; 20; 30]) Js.NaN (Js.Int 1)).1 = Js.Returned /\
  Js.items (Js.swap (Js.plain [10; 20; 30]) Js.NaN (Js.Int 1)).2
    = [Some 10; None; Some 30] /\
  Js.get (Js.swap (Js.plain [10; 20; 30]) Js.NaN (Js.Int 1)).2 Js.NaN
    = Some 20 /\
  (Js.swap (Js.plain [10; 20; 30]) Js.NaN (Js.Int 1)).2
    <> Js.plain [10; 20; 30].
Proof.
  split; [by intros [] |]. split; [reflexivity |]. split; [reflexivity |].
  split; [vm_compute; reflexivity |].
  intros Heq. apply (f_equal Js.items) in Heq. discriminate Heq.
Qed.

(** ** The selector *)

(** C5. With candidates and assigned colors both non-empty, and color
    distances non-negative, [selectDistinctColorIndex] returns an index [i]
    of the candidates list such that no candidate is farther from its closest
    assigned color than candidate [i] is, and every candidate before [i] is
    strictly closer: the smallest index of a candidate whose minimum distance
    is the greatest. That minimum is the least of the [deltaE2000] distances
    to the assigned colors. When no candidate has a positive minimum
    distance the index returned is 0. *)
Theorem selectDistinctColorIndex_first_farthest `{Imports}
    (candidates assigned : list Colord) :
  (forall c1 c2, (0 <= Color_deltaE c1 c2 "2000")%Q) ->
  candidates <> [] ->
  assigned <> [] ->
  exists i ci,
    selectDistinctColorIndex candidates assigned = Ok (Some i) /\
    candidates !! i = Some ci /\
    (forall j cj, candidates !! j = Some cj ->
       number_le (closest assigned cj) (closest assigned ci)) /\
    (forall j cj, candidates !! j = Some cj -> (j < i)%nat ->
       number_lt (closest assigned cj) (closest assigned ci)) /\
    (forall c,
       (forall a, a ∈ assigned ->
          number_le (closest assigned c) (deltaE2000 (toColor c) (toColor a))) /\
       (exists a, a ∈ assigned /\
          closest assigned c = deltaE2000 (toColor c) (toColor a))) /\
    ((forall cj, cj ∈ candidates -> number_le (closest assigned cj) (Finite 0)) ->
     i = 0%nat).
Proof.
  intros Hnonneg Hcand Hasg.
  assert (Hmin : forall c,
    (forall a, a ∈ assigned ->
       number_le (closest assigned c) (deltaE2000 (toColor c) (toColor a))) /\
    (exists a, a ∈ assigned /\
       closest assigned c = deltaE2000 (toColor c) (toColor a))).
  { intros c. split.
    - intros a Ha. apply minDeltaE_le. by apply list_elem_of_fmap_2.
    - destruct (minDeltaE_attained (toColor c) (map toColor assigned))
        as (lab & Hlab & Heq).
      + by destruct assigned.
      + apply list_elem_of_fmap in Hlab as (a & -> & Ha). by exists a. }
  assert (Hpos : forall c, number_le (Finite 0) (closest assigned c)).
  { intros c. destruct (Hmin c) as (_ & a & _ & ->). simpl. apply Hnonneg. }
  unfold selectDistinctColorIndex.
  rewrite decide_False by (destruct assigned; [done | simpl; lia]).
  destruct (scanFrom_spec (map toColor assigned) candidates 0 (Finite 0) 0)
    as [[Hr Hall] | (k & c & Hk & Hr & Hlt & Hmax & Hfirst)].
  - destruct candidates as [| c0 rest]; [done |].
    exists 0%nat, c0. rewrite Hr. repeat split; try done.
    + intros j cj Hj. eapply number_le_trans; [| apply Hpos].
      apply Hall. by eapply list_elem_of_lookup_2.
    + intros j cj _ Hj. lia.
    + apply Hmin.
    + apply Hmin.
  - exists k, c. rewrite Hr. repeat split; try done.
    + apply Hmin.
    + apply Hmin.
    + intros Hzero. exfalso.
      apply (number_lt_irrefl (Finite 0)).
      eapply number_lt_le_trans; [apply Hlt |].
      apply Hzero. by eapply list_elem_of_lookup_2.
Qed.

(** C5 on white assigned and the candidates silver then black: black, at
    index 1, is chosen. *)
Lemma selectDistinctColorIndex_first_farthest_witness :
  exists i ci,
    @selectDistinctColorIndex Sample.imports
      [Sample.silver; Sample.black] [Sample.white] = Ok (Some i) /\
    [Sample.silver; Sample.black] !! i = Some ci /\ i = 1%nat.
Proof.
  destruct (@selectDistinctColorIndex_first_farthest Sample.imports
              [Sample.silver; Sample.black] [Sample.white])
    as (i & ci & Hres & Hci & _).
  - intros c1 c2. apply Sample.distance_nonneg.
  - discriminate.
  - discriminate.
  - exists i, ci. split; [exact Hres | split; [exact Hci |]].
    vm_compute in Hres. by injection Hres as <-.
Defined.

(** C6. [selectDistinctColorIndex] throws exactly when the assigned list is
    empty, whatever the candidates; the error is then "No assigned colors". *)
Theorem selectDistinctColorIndex_throws_iff_no_assigned `{Imports}
    (candidates assigned : list Colord) :
  (raises (selectDistinctColorIndex candidates assigned) <-> assigned = []) /\
  (forall e, selectDistinctColorIndex candidates assigned = Throw e ->
     e = NoAssignedColors).
Proof.
  unfold selectDistinctColorIndex. destruct assigned as [| a assigned]; simpl.
  - split; [done |]. by intros e [= <-].
  - split; [split; done | done].
Qed.

(** C10. [selectDistinctColorIndex] never returns [null]; with no candidates
    and some assigned color it returns 0, at which the empty candidates list
    has no entry. *)
Theorem selectDistinctColorIndex_never_null `{Imports}
    (candidates assigned : list Colord) :
  selectDistinctColorIndex candidates assigned <> Ok None /\
  (assigned <> [] ->
   selectDistinctColorIndex [] assigned = Ok (Some 0%nat) /\
   array_get ([] : list Colord) 0 = None).
Proof.
  unfold selectDistinctColorIndex. split.
  - by case_decide.
  - intros Hne. rewrite decide_False by (destruct assigned; [done | simpl; lia]).
    done.
Qed.

(** ** The allocator *)

(** C1. On a new allocator whose primary palette has no repeated color, and
    with a generator whose draws lie in the range asked for, [assignColor]
    for pairwise-distinct identities, at most as many as the palette has
    colors, returns every time, and the colors returned are pairwise
    distinct and all from the primary palette; for as many identities as
    colors they are the whole palette in some order. *)
Theorem assignColor_no_repeat_before_exhaustion `{Imports}
    (colors fallback : list Colord) (ids : list string) :
  (forall rand lo hi, lo < hi -> lo <= nextInt rand lo hi < hi) ->
  NoDup colors ->
  NoDup ids ->
  (length ids <= length colors)%nat ->
  exists cs,
    (assignColors ids (constructor colors fallback)).1 = Ok (Some <$> cs) /\
    length cs = length ids /\
    NoDup cs /\
    (forall c, c ∈ cs -> c ∈ colors) /\
    (length ids = length colors -> cs ≡ₚ colors).
Proof.
  intros Hrange Hcolors Hids Hle.
  destruct (assignColors_draws ids Hrange (constructor colors fallback)
              colors [] Hids)
    as (cs & unused' & Hres & Hlen & Hperm & _); try done.
  { simpl. by rewrite app_nil_r. }
  exists cs. repeat split; try done.
  - rewrite <- Hperm in Hcolors. by apply NoDup_app in Hcolors as (? & _).
  - intros c Hc. rewrite <- Hperm. apply elem_of_app. by left.
  - intros Heq. assert (unused' = []) as ->.
    { apply Permutation_length in Hperm. rewrite length_app in Hperm.
      apply length_zero_iff_nil. lia. }
    by rewrite app_nil_r in Hperm.
Qed.

Lemma assignColor_no_repeat_before_exhaustion_witness :
  exists cs : list RgbaColor,
    (@assignColors Sample.imports ["ann"; "bob"; "cy"]
       (@constructor Sample.imports [Sample.crimson; Sample.navy; Sample.olive]
                    [Sample.silver])).1 = Ok (Some <$> cs) /\
    length cs = 3%nat /\
    NoDup cs /\
    (forall c, c ∈ cs -> c ∈ [Sample.crimson; Sample.navy; Sample.olive]) /\
    (3%nat = 3%nat -> cs ≡ₚ [Sample.crimson; Sample.navy; Sample.olive]).
Proof.
  apply (@assignColor_no_repeat_before_exhaustion Sample.imports
           [Sample.crimson; Sample.navy; Sample.olive] [Sample.silver]
           ["ann"; "bob"; "cy"]).
  - intros rand lo hi. apply Sample.draw_range.
  - change (NoDup (A := RgbaColor) [Sample.crimson; Sample.navy; Sample.olive]).
    compute_done.
  - compute_done.
  - simpl. lia.
Defined.

(** C2. Once as many distinct identities as the primary palette has colors
    have been assigned, the cursor equals the palette length, and
    [assignColor] for a further new identity draws its index over the whole
    length of the fallback palette (cursor 0), returns the fallback color at
    that index, leaves the cursor at 1, leaves as active palette a
    rearrangement of the fallback palette with the returned color last, and
    leaves the fallback palette itself as it was. *)
Theorem assignColor_recycles_fallback `{Imports}
    (colors fallback : list Colord) (ids : list string) (id : string) :
  (forall rand lo hi, lo < hi -> lo <= nextInt rand lo hi < hi) ->
  fallback <> [] ->
  NoDup (ids ++ [id]) ->
  length ids = length colors ->
  let this := (assignColors ids (constructor colors fallback)).2 in
  let r := nextInt (PseudoRandom_new (simpleHash id)) 0 (len fallback) in
  sampleWOReplace this = len colors /\
  len (availableColors this) = len colors /\
  exists c rest,
    array_get fallback r = Some c /\
    c ∈ fallback /\
    (assignColor id this).1 = Ok (Some c) /\
    sampleWOReplace (assignColor id this).2 = 1 /\
    availableColors (assignColor id this).2 = rest ++ [c] /\
    rest ++ [c] ≡ₚ fallback /\
    fallbackColors (assignColor id this).2 = fallback.
Proof.
  intros Hrange Hfb Hnd Hlen this r.
  apply NoDup_app in Hnd as (Hids & Hnotin & _).
  destruct (assignColors_draws ids Hrange (constructor colors fallback)
              colors [] Hids)
    as (cs & unused' & Hres & Hlcs & Hperm & Hav & Hk & Hfbk); try done.
  { simpl. by rewrite app_nil_r. }
  { lia. }
  fold this in Hav, Hk, Hfbk. simpl in Hfbk.
  assert (unused' = []) as ->.
  { apply Permutation_length in Hperm. rewrite length_app in Hperm.
    apply length_zero_iff_nil. lia. }
  rewrite app_nil_r in Hperm. rewrite app_nil_r in Hav. simpl in Hav, Hk.
  assert (Hcur : sampleWOReplace this = len colors).
  { rewrite Hk. unfold len. simpl. rewrite Hlcs, Hlen. lia. }
  assert (Hact : len (availableColors this) = len colors).
  { rewrite Hav. unfold len. rewrite length_reverse, Hlcs, Hlen. done. }
  split; [done |]. split; [done |].
  assert (Hfresh : assigned this !! id = None).
  { unfold this. rewrite assignColors_other; [done |].
    intros Hin. apply (Hnotin id Hin). apply list_elem_of_here. }
  rewrite (assignColor_exhausted id this Hfresh) by congruence.
  destruct (assignColor_draw id (recycled this) fallback [] Hrange)
    as (c & rest & Hc & Hrest & Hdraw); try done.
  { simpl. by rewrite app_nil_r. }
  rewrite Hdraw. simpl. exists c, rest. repeat split; try done.
  rewrite <- Hrest. apply elem_of_app. right. apply list_elem_of_here.
Qed.

Lemma assignColor_recycles_fallback_witness :
  let this := (@assignColors Sample.imports ["ann"; "bob"]
                 (@constructor Sample.imports [Sample.crimson; Sample.navy]
                              [Sample.silver; Sample.olive])).2 in
  sampleWOReplace this = 2 /\
  (@assignColor Sample.imports "cy" this).1 = Ok (Some Sample.silver) /\
  sampleWOReplace (@assignColor Sample.imports "cy" this).2 = 1.
Proof.
  destruct (@assignColor_recycles_fallback Sample.imports
              [Sample.crimson; Sample.navy] [Sample.silver; Sample.olive]
              ["ann"; "bob"] "cy")
    as (Hcur & _ & c & rest & _ & _ & Hres & Hk & _).
  - intros rand lo hi. apply Sample.draw_range.
  - discriminate.
  - compute_done.
  - reflexivity.
  - split; [exact Hcur |]. split; [| exact Hk].
    vm_compute. reflexivity.
Defined.

(** C3. Once [assignColor(id)] has returned a color, then after any further
    calls of the three public methods, with any arguments and whether they
    return or throw, the assignment table still maps [id] to that color and
    [assignColor(id)] returns it again, changing nothing. *)
Theorem assignColor_memoized `{Imports}
    (id : string) (this : ColorAllocator) (v : value) (history : list Call) :
  (assignColor id this).1 = Ok v ->
  let this' := afterAll history (assignColor id this).2 in
  assigned this' !! id = Some v /\
  assignColor id this' = (Ok v, this').
Proof.
  intros Hfirst this'.
  assert (Hentry : assigned this' !! id = Some v).
  { apply afterAll_keeps. by apply assignColor_records. }
  split; [done | by apply assignColor_hit].
Qed.

Lemma assignColor_memoized_witness :
  let this := @constructor Sample.imports [Sample.crimson; Sample.navy]
                [Sample.silver] in
  let history :=
    [CallAssignColor "bob"; CallAssignTeamColor "Wolves";
     CallAssignTeamPlayerColor "Blue" "p1"; CallAssignColor "ann";
     CallAssignColor "cy"] in
  let this' := @afterAll Sample.imports history
                 (@assignColor Sample.imports "ann" this).2 in
  assigned this' !! "ann" = Some (Some Sample.navy) /\
  @assignColor Sample.imports "ann" this' = (Ok (Some Sample.navy), this').
Proof.
  apply (@assignColor_memoized Sample.imports "ann"). vm_compute. reflexivity.
Defined.

(** C4. Two allocators are built in one store from palettes with the same
    contents, possibly from the very same two arrays. Calls on the one, calls
    on the other and writes by anyone else to any array that is not an
    allocator's own (the caller's palettes included) then happen in any
    order. If the calls made on the two allocators are the same calls in the
    same order, [assignColor(id)] returns or throws the same on both, and
    this outcome is the one the palettes' contents and that history of calls
    determine. *)
Theorem two_allocators_agree `{Imports} (h : Heap.heap)
    (colors1 fallback1 colors2 fallback2 : Heap.loc)
    (colors fallback : list Colord)
    (schedule : list Heap.event) (history : list Call)
    (s : Heap.system) (id : string) :
  h !! colors1 = Some colors -> h !! fallback1 = Some fallback ->
  h !! colors2 = Some colors -> h !! fallback2 = Some fallback ->
  let a1 := Heap.constructor colors1 fallback1 h in
  let a2 := Heap.constructor colors2 fallback2 a1.2 in
  Heap.run schedule
    {| Heap.first := a1.1; Heap.second := a2.1; Heap.store := a2.2 |} = Some s ->
  Heap.callsOnFirst schedule = history ->
  Heap.callsOnSecond schedule = history ->
  (Heap.assignColor id (Heap.first s, Heap.store s)).1
    = (Heap.assignColor id (Heap.second s, Heap.store s)).1 /\
  (Heap.assignColor id (Heap.first s, Heap.store s)).1
    = (assignColor id (afterAll history (constructor colors fallback))).1.
Proof.
  intros Hc1 Hf1 Hc2 Hf2. cbv zeta.
  pose proof (Heap_constructor_view colors1 fallback1 h colors fallback Hc1 Hf1)
    as Hfirst. cbv zeta in Hfirst.
  destruct (Heap.constructor colors1 fallback1 h) as [o1 h1].
  destruct Hfirst as (Hv1 & Hwf1 & Hd1 & Hsame1 & Hpriv1).
  cbn [fst snd] in *.
  pose proof (Heap_constructor_view colors2 fallback2 h1 colors fallback)
    as Hsecond. cbv zeta in Hsecond.
  destruct (Heap.constructor colors2 fallback2 h1) as [o2 h2].
  destruct Hsecond as (Hv2 & Hwf2 & Hd2 & Hsame2 & Hpriv2).
  { rewrite Hsame1; [done | by apply elem_of_dom]. }
  { rewrite Hsame1; [done | by apply elem_of_dom]. }
  cbn [fst snd] in *.
  intros Hrun Hcalls1 Hcalls2.
  pose proof (Heap_private_in_dom o1 h1 Hwf1) as Hp1.
  destruct (Heap_view_kept o1 h1 h2 Hwf1 Hd2) as [Hv1' Hwf1'].
  { intros l Hl. apply Hsame2. set_solver. }
  assert (Hinv : Heap_inv {| Heap.first := o1; Heap.second := o2;
                             Heap.store := h2 |}
                   (constructor colors fallback) (constructor colors fallback)).
  { unfold Heap_inv. cbn [Heap.first Heap.second Heap.store].
    rewrite Hv1'. split; [done |]. split; [done |]. split; [done |].
    split; [done |]. set_solver. }
  destruct (Heap_run_inv schedule _ s _ _ Hinv Hrun)
    as (Hs1 & Hs2 & Hswf1 & Hswf2 & _).
  rewrite Hcalls1 in Hs1. rewrite Hcalls2 in Hs2.
  destruct (Heap_sim_assignColor id _ Hswf1) as (Hr1 & _).
  destruct (Heap_sim_assignColor id _ Hswf2) as (Hr2 & _).
  rewrite Hr1, Hr2, Hs1, Hs2. done.
Qed.

Lemma two_allocators_agree_witness :
  let h : gmap positive (list RgbaColor) :=
    {[ 1%positive := [Sample.crimson; Sample.navy; Sample.olive];
       2%positive := [Sample.silver] ]} in
  let a1 := @Heap.constructor Sample.imports 1%positive 2%positive h in
  let a2 := @Heap.constructor Sample.imports 1%positive 2%positive a1.2 in
  let schedule : list (@Heap.event Sample.imports) :=
    [Heap.OnFirst (CallAssignColor "ann"); Heap.Write 1%positive [];
     Heap.OnFirst (CallAssignTeamColor "Wolves");
     Heap.OnSecond (CallAssignColor "ann");
     @Heap.Write Sample.imports 2%positive [Sample.black];
     Heap.OnSecond (CallAssignTeamColor "Wolves")] in
  exists s,
    @Heap.run Sample.imports schedule
      {| Heap.first := a1.1; Heap.second := a2.1; Heap.store := a2.2 |} = Some s /\
    (@Heap.assignColor Sample.imports "cy" (Heap.first s, Heap.store s)).1
      = (@Heap.assignColor Sample.imports "cy" (Heap.second s, Heap.store s)).1 /\
    (@Heap.assignColor Sample.imports "cy" (Heap.first s, Heap.store s)).1
      = Ok (Some Sample.navy).
Proof.
  intros h a1 a2 schedule.
  destruct (@Heap.run Sample.imports schedule
              {| Heap.first := a1.1; Heap.second := a2.1; Heap.store := a2.2 |})
    as [s |] eqn:Hrun; [| vm_compute in Hrun; discriminate Hrun].
  exists s. split; [reflexivity |].
  destruct (@two_allocators_agree Sample.imports h 1%positive 2%positive
              1%positive 2%positive
              [Sample.crimson; Sample.navy; Sample.olive] [Sample.silver]
              schedule
              [CallAssignColor "ann"; CallAssignTeamColor "Wolves"] s "cy")
    as [Hsame Hpure]; try reflexivity; [exact Hrun |].
  split; [exact Hsame |]. rewrite Hpure. vm_compute. reflexivity.
Defined.

(** The cases of the [switch] in [getTeamColorVariations] other than the
    default one: the table a listed team resolves to. *)
Definition fixedTeamColors `{Imports} (team : Team) : option (list Colord) :=
  if decide (team = Blue ColoredTeams) then Some blueTeamColors
  else if decide (team = Red ColoredTeams) then Some redTeamColors
  else if decide (team = Teal ColoredTeams) then Some tealTeamColors
  else if decide (team = Purple ColoredTeams) then Some purpleTeamColors
  else if decide (team = Yellow ColoredTeams) then Some yellowTeamColors
  else if decide (team = Orange ColoredTeams) then Some orangeTeamColors
  else if decide (team = Green ColoredTeams) then Some greenTeamColors
  else if decide (team = Bot ColoredTeams) then Some botTeamColors
  else if decide (team = Humans ColoredTeams) then Some blueTeamColors
  else if decide (team = Nations ColoredTeams) then Some redTeamColors
  else None.

(** C8, as the code has it. For a team listed in [ColoredTeams],
    [assignTeamColor] returns the first entry of the team's table with its
    three color channels rounded to the nearest integer (a [TypeError] if the
    table is empty) and leaves the instance as it was, so that the result
    does not depend on the instance. For any other team it is
    [assignColor(team)], with everything that call does to the instance,
    followed by the same rounding. *)
Theorem assignTeamColor_fixed_or_drawn `{Imports}
    (team : Team) (this : ColorAllocator) :
  match fixedTeamColors team with
  | Some table =>
      assignTeamColor team this =
        (match head table with
         | Some c0 => Ok (colord (roundRgb (toRgb c0)))
         | None => Throw UndefinedReceiver
         end, this)
  | None =>
      assignTeamColor team this =
        match assignColor team this with
        | (Ok (Some c), this') => (Ok (colord (roundRgb (toRgb c))), this')
        | (Ok None, this') => (Throw UndefinedReceiver, this')
        | (Throw e, this') => (Throw e, this')
        end
  end /\
  (forall rgb : RgbaColor,
     nearest_integer (rgba_r rgb) (rgba_r (roundRgb rgb)) /\
     nearest_integer (rgba_g rgb) (rgba_g (roundRgb rgb)) /\
     nearest_integer (rgba_b rgb) (rgba_b (roundRgb rgb)) /\
     rgba_a (roundRgb rgb) = rgba_a rgb).
Proof.
  split.
  - unfold fixedTeamColors, assignTeamColor, getTeamColorVariations.
    repeat case_decide;
      try match goal with
          | |- context [Some <$> ?table] => by destruct table
          end.
    destruct (assignColor team this) as [[[c |] | e] this']; done.
  - intros rgb. unfold roundRgb. simpl.
    split; [| split; [| split]]; try apply Math_round_nearest. done.
Qed.

(** C8 as stated fails: for a team that is not listed, [assignTeamColor]
    draws a color and records it, so the instance after the call is not the
    instance before it. *)
Lemma assignTeamColor_unlisted_team_changes_state :
  let this := @constructor Sample.imports [Sample.crimson; Sample.navy]
                [Sample.silver] in
  let this' := (@assignTeamColor Sample.imports "Wolves" this).2 in
  sampleWOReplace this = 0 /\ sampleWOReplace this' = 1 /\
  assigned this !! "Wolves" = None /\
  assigned this' !! "Wolves" = Some (Some Sample.crimson) /\
  this' <> this.
Proof.
  assert (Hk : sampleWOReplace
                 (@assignTeamColor Sample.imports "Wolves"
                    (@constructor Sample.imports [Sample.crimson; Sample.navy]
                       [Sample.silver])).2 = 1)
    by (vm_compute; reflexivity).
  split; [reflexivity |]. split; [exact Hk |].
  split; [reflexivity |]. split; [vm_compute; reflexivity |].
  intros Heq. rewrite Heq in Hk. discriminate Hk.
Qed.

Lemma getTeamColorVariations_listed `{Imports} (team : Team)
    (table : list Colord) (this : ColorAllocator) :
  fixedTeamColors team = Some table ->
  getTeamColorVariations team this = (Ok (Some <$> table), this).
Proof.
  unfold fixedTeamColors, getTeamColorVariations.
  repeat case_decide; try done; by intros [= <-].
Qed.

Lemma getTeamColorVariations_unlisted `{Imports} (team : Team)
    (this : ColorAllocator) :
  fixedTeamColors team = None ->
  getTeamColorVariations team this =
    match assignColor team this with
    | (Ok c, this') => (Ok [c], this')
    | (Throw e, this') => (Throw e, this')
    end.
Proof.
  unfold fixedTeamColors, getTeamColorVariations.
  repeat case_decide; try done;
    try (intros _; by destruct (assignColor team this) as [[c | e] this']).
Qed.

Lemma array_get_fmap_Some {T : Type} (l : list T) (i : Z) :
  mjoin (array_get (Some <$> l) i) = array_get l i.
Proof.
  unfold array_get. case_decide; [done |].
  rewrite list_lookup_fmap. by destruct (l !! Z.to_nat i).
Qed.

(** C9, as the code has it. For a player without a stored color:
    for a listed team the call returns the entry of the team's table at
    index [simpleHash(playerId) % length] ([undefined] if there is none),
    stores it under the player id alone and changes nothing else; with a
    non-empty table and a non-negative hash that entry is the table's color
    at the hash modulo the length. For a team that is not listed the
    variation list is the one color [assignColor(team)] yields: the call
    returns and stores that color if [assignColor(team)] returns, and throws
    what [assignColor(team)] throws, storing nothing, otherwise. After a
    first call that returned, every later call for the player returns the
    stored value, whatever team it is given and whatever calls came
    between. *)
Theorem assignTeamPlayerColor_first_then_stored `{Imports}
    (team : Team) (playerId : string) (this : ColorAllocator) :
  teamPlayerColors this !! playerId = None ->
  match fixedTeamColors team with
  | Some table =>
      let entry := js_rem (simpleHash playerId) (len table) ≫= array_get table in
      assignTeamPlayerColor team playerId this =
        (Ok entry,
         set_teamPlayerColors (<[playerId := entry]> (teamPlayerColors this))
                              this) /\
      (table <> [] -> 0 <= simpleHash playerId ->
       is_Some entry /\
       entry = table !! Z.to_nat (simpleHash playerId `mod` len table))
  | None =>
      match assignColor team this with
      | (Ok v, this1) =>
          assignTeamPlayerColor team playerId this =
            (Ok v,
             set_teamPlayerColors (<[playerId := v]> (teamPlayerColors this))
                                  this1)
      | (Throw e, this1) =>
          assignTeamPlayerColor team playerId this = (Throw e, this1) /\
          teamPlayerColors this1 !! playerId = None
      end
  end /\
  (forall v, (assignTeamPlayerColor team playerId this).1 = Ok v ->
   forall (history : list Call) (team' : Team),
     let this' := afterAll history (assignTeamPlayerColor team playerId this).2 in
     assignTeamPlayerColor team' playerId this' = (Ok v, this')).
Proof.
  intros Hnew. split.
  - destruct (fixedTeamColors team) as [table |] eqn:Hteam.
    + split.
      * unfold assignTeamPlayerColor. rewrite Hnew.
        rewrite (getTeamColorVariations_listed team table this Hteam).
        assert (Hentry : mjoin (js_rem (simpleHash playerId)
                                  (len (Some <$> table))
                                ≫= array_get (Some <$> table))
                         = js_rem (simpleHash playerId) (len table)
                           ≫= array_get table).
        { unfold len. rewrite length_fmap.
          destruct (js_rem _ _) as [i |]; simpl; [| done].
          apply array_get_fmap_Some. }
        by rewrite Hentry.
      * intros Hne Hhash.
        assert (Hlen : 0 < len table).
        { unfold len. destruct table; [done | simpl; lia]. }
        pose proof (Z.mod_pos_bound (simpleHash playerId) (len table) Hlen).
        unfold js_rem. rewrite decide_False by lia. simpl.
        rewrite Z.rem_mod_nonneg by lia.
        rewrite array_get_lookup by lia. split; [| done].
        apply lookup_lt_is_Some_2. unfold len in *. lia.
    + unfold assignTeamPlayerColor. rewrite Hnew.
      rewrite (getTeamColorVariations_unlisted team this Hteam).
      pose proof (assignColor_frame team this) as (_ & Htp & _).
      destruct (assignColor team this) as [[v | e] this1]; simpl in *.
      * rewrite Htp. do 3 f_equal.
        -- unfold js_rem, len. simpl. by rewrite Z.rem_1_r.
        -- unfold js_rem, len. simpl. by rewrite Z.rem_1_r.
      * by rewrite Htp.
  - intros v Hfirst history team'.
    match goal with |- context [afterAll history ?st] =>
      set (this' := afterAll history st) end.
    assert (Hstored : teamPlayerColors this' !! playerId = Some v).
    { apply afterAll_keeps. revert Hfirst. unfold assignTeamPlayerColor.
      rewrite Hnew.
      destruct (getTeamColorVariations team this) as [[teamColors | e] this1];
        simpl; [| done].
      intros [= <-]. by rewrite lookup_insert_eq. }
    unfold assignTeamPlayerColor. by rewrite Hstored.
Qed.

Lemma assignTeamPlayerColor_first_then_stored_witness :
  let this := @constructor Sample.imports [Sample.crimson] [Sample.silver] in
  (@assignTeamPlayerColor Sample.imports "Blue" "p1" this =
     (Ok (Some Sample.navy),
      set_teamPlayerColors (<["p1" := Some Sample.navy]> (teamPlayerColors this))
                           this)) /\
  (forall (history : list Call) (team' : Team),
     let this' := @afterAll Sample.imports history
                    (@assignTeamPlayerColor Sample.imports "Blue" "p1" this).2 in
     @assignTeamPlayerColor Sample.imports team' "p1" this'
       = (Ok (Some Sample.navy), this')).
Proof.
  intros this.
  destruct (@assignTeamPlayerColor_first_then_stored Sample.imports
              "Blue" "p1" this) as [Hfirst Hlater]; [reflexivity |].
  split.
  - apply Hfirst.
  - apply Hlater. apply (f_equal fst (proj1 Hfirst)).
Defined.

(** C9 as stated fails: for a team that is not listed, on an allocator with
    nothing to draw from, the first call for a player throws out of
    [assignColor(team)]; no entry is returned or stored, and the next call
    for the player throws again. *)
Lemma assignTeamPlayerColor_first_call_throws :
  let this := @constructor Sample.imports [] [] in
  let this' := (@assignTeamPlayerColor Sample.imports "Wolves" "p1" this).2 in
  teamPlayerColors this !! "p1" = None /\
  raises (@assignTeamPlayerColor Sample.imports "Wolves" "p1" this).1 /\
  teamPlayerColors this' !! "p1" = None /\
  raises (@assignTeamPlayerColor Sample.imports "Wolves" "p1" this').1.
Proof.
  split; [reflexivity |]. split; [vm_compute; exact I |].
  split; [vm_compute; reflexivity | vm_compute; exact I].
Qed.

(** * Further properties of the code *)

(** ** swap *)

(** [swap] throws exactly when one of the two indices is a number other than
    [NaN] outside [0, length). It then leaves the array as it was, and the
    error names the first such index and the length. [NaN] passes both
    guards, and so does a non-integer inside [0, length). *)
Theorem swap_throws_exactly {T : Type} (a : Js.array T) (x y : Js.num) :
  let ok k := k = Js.NaN \/ Js.within k (Js.alength a) in
  ((Js.swap a x y).1 = Js.Returned <-> ok x /\ ok y) /\
  (~ (ok x /\ ok y) ->
   (Js.swap a x y).2 = a /\
   (Js.swap a x y).1
     = Js.Thrown (if decide (ok x) then y else x) (Js.alength a)).
Proof.
  intros ok. split; [| apply Js_swap_thrown].
  split.
  - intros Hret. destruct (decide (ok x /\ ok y)) as [? | Hout]; [done |].
    destruct (Js_swap_thrown a x y Hout) as [_ Hthrown]. congruence.
  - intros [Hx Hy]. by apply Js_swap_reads.
Qed.

(** When neither index is rejected, [swap] returns and exchanges what is
    read at [x] and at [y]; every other read, and the length, are as before.
    For integer indices the two are entries of the array; for [NaN] or a
    non-integer the value read and written is a property beside the
    entries. *)
Theorem swap_exchanges_reads {T : Type} (a : Js.array T) (x y : Js.num) :
  x = Js.NaN \/ Js.within x (Js.alength a) ->
  y = Js.NaN \/ Js.within y (Js.alength a) ->
  (Js.swap a x y).1 = Js.Returned /\
  Js.get (Js.swap a x y).2 x = Js.get a y /\
  Js.get (Js.swap a x y).2 y = Js.get a x /\
  (forall k, k <> x -> k <> y -> Js.get (Js.swap a x y).2 k = Js.get a k) /\
  Js.alength (Js.swap a x y).2 = Js.alength a.
Proof.
  intros Hx Hy.
  destruct (Js_swap_reads a x y Hx Hy) as (Hret & Hlen & Hget).
  split; [done |]. split; [| split; [| split; [| done]]].
  - rewrite Hget. case_decide; [by subst | by rewrite decide_True].
  - rewrite Hget. by rewrite decide_True.
  - intros k Hkx Hky. rewrite Hget. by rewrite !decide_False.
Qed.

Lemma swap_exchanges_reads_witness :
  let a := {| Js.items := [Some 10; None; Some 30; Some 40];
              Js.props := {[Js.Frac 0 1 := Some 7]} |} in
  (Js.swap a (Js.Int 3) (Js.Frac 0 1)).1 = Js.Returned /\
  Js.get (Js.swap a (Js.Int 3) (Js.Frac 0 1)).2 (Js.Int 3)
    = Js.get a (Js.Frac 0 1) /\
  Js.get (Js.swap a (Js.Int 3) (Js.Frac 0 1)).2 (Js.Frac 0 1)
    = Js.get a (Js.Int 3) /\
  (forall k, k <> Js.Int 3 -> k <> Js.Frac 0 1 ->
     Js.get (Js.swap a (Js.Int 3) (Js.Frac 0 1)).2 k = Js.get a k) /\
  Js.alength (Js.swap a (Js.Int 3) (Js.Frac 0 1)).2 = Js.alength a.
Proof.
  intros a. apply (swap_exchanges_reads a (Js.Int 3) (Js.Frac 0 1)).
  - right. simpl. unfold Js.alength. simpl. lia.
  - right. simpl. unfold Js.alength. simpl. lia.
Defined.

(** Calling [swap] twice with the same two indices, whatever numbers they
    are, leaves every read of the array and its length as they were at the
    start: two throws write nothing, and two exchanges cancel, also when an
    index is [NaN] or a non-integer and the first call moved an entry out to
    a property. *)
Theorem swap_twice_restores_reads {T : Type} (a : Js.array T)
    (x y k : Js.num) :
  Js.get (Js.swap (Js.swap a x y).2 x y).2 k = Js.get a k /\
  Js.alength (Js.swap (Js.swap a x y).2 x y).2 = Js.alength a.
Proof.
  destruct (decide ((x = Js.NaN \/ Js.within x (Js.alength a)) /\
                    (y = Js.NaN \/ Js.within y (Js.alength a))))
    as [[Hx Hy] | Hout].
  - destruct (Js_swap_reads a x y Hx Hy) as (_ & Hlen & Hget).
    destruct (Js_swap_reads (Js.swap a x y).2 x y) as (_ & Hlen' & Hget');
      [by rewrite Hlen | by rewrite Hlen |].
    split; [| congruence]. rewrite Hget', !Hget.
    repeat case_decide; congruence.
  - destruct (Js_swap_thrown a x y Hout) as [Heq _]. by rewrite !Heq.
Qed.

(** With integer indices, whatever integers they are, the entries of the
    array after [swap] are a rearrangement of the entries before and the
    other properties are untouched; with any indices at all, the length
    stays the same. *)
Theorem swap_integer_indices_rearrange {T : Type} (a : Js.array T) :
  (forall x y : Z,
     Js.items (Js.swap a (Js.Int x) (Js.Int y)).2 ≡ₚ Js.items a /\
     Js.props (Js.swap a (Js.Int x) (Js.Int y)).2 = Js.props a) /\
  (forall x y : Js.num, Js.alength (Js.swap a x y).2 = Js.alength a).
Proof.
  split.
  - intros x y. destruct (Js_swap_items a x y) as (-> & -> & _).
    split; [apply swap_Permutation | done].
  - intros x y.
    destruct (decide ((x = Js.NaN \/ Js.within x (Js.alength a)) /\
                      (y = Js.NaN \/ Js.within y (Js.alength a))))
      as [[Hx Hy] | Hout].
    + by apply Js_swap_reads.
    + destruct (Js_swap_thrown a x y Hout) as [Heq _]. by rewrite Heq.
Qed.

(** On an array without [undefined] and without other properties, and with
    integer indices, the method is the list [swap] that [assignColor] is
    embedded with: the same entries afterwards, a plain array again, and a
    throw in the one exactly when in the other, with the same index and
    length in the error. *)
Theorem swap_on_plain_array {T : Type} (l : list T) (x y : Z) :
  (Js.swap (Js.plain l) (Js.Int x) (Js.Int y)).2 = Js.plain (swap l x y).2 /\
  ((Js.swap (Js.plain l) (Js.Int x) (Js.Int y)).1 = Js.Returned /\
   (swap l x y).1 = Ok tt \/
   exists i, (Js.swap (Js.plain l) (Js.Int x) (Js.Int y)).1
               = Js.Thrown (Js.Int i) (len l) /\
             (swap l x y).1 = Throw (IndexOutOfBounds i (len l))).
Proof.
  destruct (Js_swap_items (Js.plain l) x y) as (Hitems & Hprops & Hout).
  destruct (swap_fmap Some l x y) as [Hfmap Hres].
  assert (Hlen : Js.alength (Js.plain l) = len l).
  { unfold Js.alength, Js.plain, len. simpl. by rewrite length_fmap. }
  split.
  - destruct (Js.swap (Js.plain l) (Js.Int x) (Js.Int y)) as [o [its ps]].
    simpl in *. unfold Js.plain. by rewrite Hitems, Hprops, Hfmap.
  - simpl in Hout. rewrite Hres, Hlen in Hout. done.
Qed.

(** ** The selector *)

(** Two numbers neither of which is greater than the other. *)
Definition number_equiv (a b : number) : Prop :=
  number_le a b /\ number_le b a.

Lemma number_gt_equiv (a a' b b' : number) :
  number_equiv a a' -> number_equiv b b' -> number_gt a b = number_gt a' b'.
Proof.
  intros [Ha Ha'] [Hb Hb'].
  destruct (number_gt a b) eqn:E, (number_gt a' b') eqn:E'; try done.
  - apply number_gt_true in E. apply number_gt_false in E'. exfalso.
    apply (number_lt_irrefl b).
    eapply number_lt_le_trans; [apply E |].
    eapply number_le_trans; [apply Ha |].
    eapply number_le_trans; [apply E' | apply Hb'].
  - apply number_gt_false in E. apply number_gt_true in E'. exfalso.
    apply (number_lt_irrefl b').
    eapply number_lt_le_trans; [apply E' |].
    eapply number_le_trans; [apply Ha' |].
    eapply number_le_trans; [apply E | apply Hb].
Qed.

(** [minDeltaE] depends on the assigned colors as a set only. *)
Lemma minDeltaE_equiv `{Imports} (lab1 : Color) (cs cs' : list Color) :
  (forall c, c ∈ cs <-> c ∈ cs') ->
  number_equiv (minDeltaE lab1 cs) (minDeltaE lab1 cs').
Proof.
  assert (Hhalf : forall l l' : list Color, (forall c, c ∈ l -> c ∈ l') ->
            number_le (minDeltaE lab1 l') (minDeltaE lab1 l)).
  { intros l l' Hsub. destruct l as [| c0 l].
    - unfold minDeltaE at 2. simpl. by destruct (minDeltaE lab1 l').
    - destruct (minDeltaE_attained lab1 (c0 :: l)) as (c & Hc & ->); [done |].
      apply minDeltaE_le. by apply Hsub. }
  intros Hiff. split; apply Hhalf; intros c; apply Hiff.
Qed.

Lemma scanFrom_equiv `{Imports} (labs labs' : list Color) (rest : list Colord)
    (i : nat) (m m' : number) (maxIndex : nat) :
  (forall c, number_equiv (minDeltaE (toColor c) labs)
                          (minDeltaE (toColor c) labs')) ->
  number_equiv m m' ->
  scanFrom labs rest i m maxIndex = scanFrom labs' rest i m' maxIndex.
Proof.
  intros Hmin. revert i m m' maxIndex.
  induction rest as [| color rest IH]; intros i m m' maxIndex Hm; simpl;
    [done |].
  rewrite (number_gt_equiv _ (minDeltaE (toColor color) labs') m m')
    by (done || apply Hmin).
  destruct (number_gt (minDeltaE (toColor color) labs') m'); by apply IH.
Qed.

(** The index chosen depends on the assigned colors as a set only: their
    order and repetitions among them do not matter. Throwing does not
    either. *)
Theorem selectDistinctColorIndex_assigned_as_set `{Imports}
    (candidates assigned assigned' : list Colord) :
  (forall c, c ∈ assigned <-> c ∈ assigned') ->
  selectDistinctColorIndex candidates assigned =
  selectDistinctColorIndex candidates assigned'.
Proof.
  intros Hset. unfold selectDistinctColorIndex.
  destruct assigned as [| a0 assigned], assigned' as [| a0' assigned'];
    [done | | |].
  - exfalso. eapply elem_of_nil, Hset, list_elem_of_here.
  - exfalso. eapply elem_of_nil, Hset, list_elem_of_here.
  - simpl. do 2 f_equal.
    apply (scanFrom_equiv (toColor a0 :: map toColor assigned)
             (toColor a0' :: map toColor assigned')); [| split; apply number_le_refl].
    intros c.
    apply (minDeltaE_equiv _ (map toColor (a0 :: assigned))
             (map toColor (a0' :: assigned'))).
    intros lab. rewrite !list_elem_of_fmap.
    split; intros (a & -> & Ha); exists a; (split; [done | by apply Hset]).
Qed.

Lemma selectDistinctColorIndex_assigned_as_set_witness :
  @selectDistinctColorIndex Sample.imports
    [Sample.silver; Sample.olive; Sample.black] [Sample.white; Sample.navy] =
  @selectDistinctColorIndex Sample.imports
    [Sample.silver; Sample.olive; Sample.black]
    [Sample.navy; Sample.white; Sample.navy].
Proof.
  apply (@selectDistinctColorIndex_assigned_as_set Sample.imports).
  intros c. rewrite !elem_of_cons, !elem_of_nil. tauto.
Defined.

(** Whatever the distance function, signs included: when no candidate has a
    positive minimum distance the index returned is 0; otherwise it is the
    first index of a candidate with the greatest minimum distance, which is
    then positive. *)
Theorem selectDistinctColorIndex_cases `{Imports}
    (candidates assigned : list Colord) :
  assigned <> [] ->
  ((forall c, c ∈ candidates -> number_le (closest assigned c) (Finite 0)) /\
   selectDistinctColorIndex candidates assigned = Ok (Some 0%nat)) \/
  (exists i ci,
     selectDistinctColorIndex candidates assigned = Ok (Some i) /\
     candidates !! i = Some ci /\
     number_lt (Finite 0) (closest assigned ci) /\
     (forall j cj, candidates !! j = Some cj ->
        number_le (closest assigned cj) (closest assigned ci)) /\
     (forall j cj, candidates !! j = Some cj -> (j < i)%nat ->
        number_lt (closest assigned cj) (closest assigned ci))).
Proof.
  intros Hasg. unfold selectDistinctColorIndex.
  rewrite decide_False by (destruct assigned; [done | simpl; lia]).
  destruct (scanFrom_spec (map toColor assigned) candidates 0 (Finite 0) 0)
    as [[Hr Hall] | (k & c & Hk & Hr & Hlt & Hmax & Hfirst)].
  - left. by rewrite Hr.
  - right. exists k, c. by rewrite Hr.
Qed.

Lemma selectDistinctColorIndex_cases_witness :
  let candidates : list RgbaColor :=
    [Sample.silver; Sample.black; Sample.black] in
  let assigned : list RgbaColor := [Sample.white] in
  ((forall c, c ∈ candidates ->
      number_le (@closest Sample.imports assigned c) (Finite 0)) /\
   @selectDistinctColorIndex Sample.imports candidates assigned =
     Ok (Some 0%nat)) \/
  (exists i ci,
     @selectDistinctColorIndex Sample.imports candidates assigned =
       Ok (Some i) /\
     candidates !! i = Some ci /\
     number_lt (Finite 0) (@closest Sample.imports assigned ci) /\
     (forall j cj, candidates !! j = Some cj ->
        number_le (@closest Sample.imports assigned cj)
                  (@closest Sample.imports assigned ci)) /\
     (forall j cj, candidates !! j = Some cj -> (j < i)%nat ->
        number_lt (@closest Sample.imports assigned cj)
                  (@closest Sample.imports assigned ci))).
Proof.
  apply (@selectDistinctColorIndex_cases Sample.imports
           [Sample.silver; Sample.black; Sample.black] [Sample.white]).
  discriminate.
Defined.

(** With candidates, the index returned is an index of the candidates list,
    whatever the distance function. *)
Theorem selectDistinctColorIndex_in_range `{Imports}
    (candidates assigned : list Colord) :
  candidates <> [] ->
  assigned <> [] ->
  exists i,
    selectDistinctColorIndex candidates assigned = Ok (Some i) /\
    (i < length candidates)%nat.
Proof.
  intros Hcand Hasg.
  destruct (selectDistinctColorIndex_cases candidates assigned Hasg)
    as [[_ Hres] | (i & ci & Hres & Hci & _)].
  - exists 0%nat. split; [done |]. destruct candidates; [done | simpl; lia].
  - exists i. split; [done |]. by apply lookup_lt_Some in Hci.
Qed.

Lemma selectDistinctColorIndex_in_range_witness :
  exists i,
    @selectDistinctColorIndex Sample.imports
      [Sample.silver; Sample.black] [Sample.white; Sample.navy] = Ok (Some i) /\
    (i < 2)%nat.
Proof.
  apply (@selectDistinctColorIndex_in_range Sample.imports
           [Sample.silver; Sample.black] [Sample.white; Sample.navy]);
    discriminate.
Defined.

(** ** The allocator: one call on a new identity *)

(** The instance [assignColor] draws from: recycled when the exhaustion test
    fires, as it is otherwise. *)
Definition active `{Imports} (this : ColorAllocator) : ColorAllocator :=
  if decide (sampleWOReplace this = len (availableColors this))
  then recycled this else this.

Lemma active_fields `{Imports} (this : ColorAllocator) :
  fallbackColors (active this) = fallbackColors this /\
  assigned (active this) = assigned this /\
  teamPlayerColors (active this) = teamPlayerColors this.
Proof. unfold active. by case_decide. Qed.

Lemma swap_throw_keeps {T : Type} (a : list T) (x y : Z) :
  raises (swap a x y).1 -> (swap a x y).2 = a.
Proof.
  unfold swap. repeat case_decide; simpl; try done.
  destruct (array_get a x), (array_get a y); done.
Qed.

(** No unused color is left: the call throws out of [swap], having advanced
    the cursor and written nothing else. *)
Lemma assignColor_no_room `{Imports} (id : string) (this : ColorAllocator) :
  assigned this !! id = None ->
  len (availableColors (active this)) <= sampleWOReplace (active this) ->
  exists e,
    assignColor id this =
      (Throw e,
       set_sampleWOReplace (sampleWOReplace (active this) + 1) (active this)).
Proof.
  intros Hnew Hroom. unfold assignColor. rewrite Hnew.
  change (if decide (sampleWOReplace this = len (availableColors this))
          then set_sampleWOReplace 0
                 (set_availableColors (fallbackColors this) this)
          else this) with (active this).
  set (act := active this) in *. cbv zeta.
  change (availableColors (set_sampleWOReplace (sampleWOReplace act + 1) act))
    with (availableColors act).
  change (sampleWOReplace (set_sampleWOReplace (sampleWOReplace act + 1) act))
    with (sampleWOReplace act + 1).
  set (r := nextInt _ _ _).
  assert (Hraises : raises (swap (availableColors act) r
            (len (availableColors act) - (sampleWOReplace act + 1))).1).
  { apply swap_throws. lia. }
  pose proof (swap_throw_keeps _ _ _ Hraises) as Hkeep.
  destruct (swap (availableColors act) r
              (len (availableColors act) - (sampleWOReplace act + 1)))
    as [[u | e] array]; simpl in *; [done |].
  exists e. subst array. by destruct act.
Qed.

(** Some unused color is left: the call returns one of the active palette's
    colors, records it, advances the cursor by one and leaves the active
    palette rearranged. *)
Lemma assignColor_room `{Imports} (id : string) (this : ColorAllocator) :
  (forall rand lo hi, lo < hi -> lo <= nextInt rand lo hi < hi) ->
  assigned this !! id = None ->
  0 <= sampleWOReplace (active this) < len (availableColors (active this)) ->
  exists c array,
    c ∈ availableColors (active this) /\
    array ≡ₚ availableColors (active this) /\
    assignColor id this =
      (Ok (Some c),
       {| availableColors := array;
          fallbackColors := fallbackColors this;
          assigned := <[id := Some c]> (assigned this);
          teamPlayerColors := teamPlayerColors this;
          sampleWOReplace := sampleWOReplace (active this) + 1 |}).
Proof.
  intros Hrange Hnew Hroom.
  destruct (active_fields this) as (Hfb & Has & Htp).
  assert (Hact : assignColor id this = assignColor id (active this)).
  { unfold active. case_decide; [by apply assignColor_exhausted | done]. }
  set (act := active this) in *.
  set (n := Z.to_nat (len (availableColors act) - sampleWOReplace act)).
  assert (Hn : (0 < n <= length (availableColors act))%nat)
    by (unfold n, len in *; lia).
  destruct (assignColor_draw id act (take n (availableColors act))
              (drop n (availableColors act)) Hrange)
    as (c & rest & Hc & Hperm & Hdraw).
  - by rewrite Has.
  - by rewrite take_drop.
  - unfold len in *. rewrite length_drop. lia.
  - intros Hnil. apply (f_equal length) in Hnil.
    rewrite length_take in Hnil. simpl in Hnil. lia.
  - exists c, (rest ++ c :: drop n (availableColors act)).
    assert (Hall : rest ++ c :: drop n (availableColors act)
                   ≡ₚ availableColors act).
    { rewrite <- (take_drop n (availableColors act)) at 2.
      rewrite <- Hperm, <- (assoc_L (++)). done. }
    split; [| split; [done |]].
    + rewrite <- Hall. apply elem_of_app. right. apply list_elem_of_here.
    + rewrite Hact, Hdraw, Hfb, Has, Htp. do 3 f_equal.
      unfold len in *. rewrite length_drop. lia.
Qed.

(** ** The allocator: invariants over call histories *)

(** A property of instances that does not look at the team-player table and
    that [assignColor] keeps is kept by every call of a public method. *)
Lemma afterAll_preserves `{Imports} (P : ColorAllocator -> Prop) :
  (forall this v, P this -> P (set_teamPlayerColors v this)) ->
  (forall id this, P this -> P (assignColor id this).2) ->
  forall history this, P this -> P (afterAll history this).
Proof.
  intros Htp Hassign.
  assert (Hget : forall team this, P this -> P (getTeamColorVariations team this).2).
  { intros team this HP. unfold getTeamColorVariations.
    repeat case_decide; simpl; try done.
    specialize (Hassign team this HP).
    by destruct (assignColor team this) as [[c | e] this']. }
  induction history as [| c history IH]; intros this HP; simpl; [done |].
  apply IH. destruct c as [id | team | team playerId]; simpl.
  - by apply Hassign.
  - unfold assignTeamColor. specialize (Hget team this HP).
    destruct (getTeamColorVariations team this) as [[teamColors | e] this'];
      simpl in *; [| done].
    by destruct (mjoin (array_get teamColors 0)).
  - unfold assignTeamPlayerColor.
    destruct (teamPlayerColors this !! playerId); simpl; [done |].
    specialize (Hget team this HP).
    destruct (getTeamColorVariations team this) as [[teamColors | e] this'];
      simpl in *; [by apply Htp | done].
Qed.

(** What every instance reachable from [new ColorAllocator(colors, fallback)]
    satisfies. *)
Definition palettes_inv `{Imports} (colors fallback : list Colord)
    (this : ColorAllocator) : Prop :=
  fallbackColors this = fallback /\
  (availableColors this ≡ₚ colors \/ availableColors this ≡ₚ fallback) /\
  0 <= sampleWOReplace this /\
  (sampleWOReplace this <= len (availableColors this) \/ fallback = []) /\
  (forall id v, assigned this !! id = Some v ->
     exists c, v = Some c /\ (c ∈ colors \/ c ∈ fallback)).

Lemma palettes_inv_active `{Imports} (colors fallback : list Colord)
    (this : ColorAllocator) :
  palettes_inv colors fallback this ->
  palettes_inv colors fallback (active this).
Proof.
  intros (Hfb & Hav & Hk0 & Hk & Has). unfold active. case_decide; [| done].
  unfold palettes_inv, recycled. simpl. rewrite Hfb.
  split; [done |]. split; [by right |]. split; [done |].
  split; [left; apply len_nonneg | done].
Qed.

Lemma palettes_inv_assignColor `{Imports} (colors fallback : list Colord)
    (id : string) (this : ColorAllocator) :
  (forall rand lo hi, lo < hi -> lo <= nextInt rand lo hi < hi) ->
  palettes_inv colors fallback this ->
  palettes_inv colors fallback (assignColor id this).2.
Proof.
  intros Hrange Hinv.
  destruct (assigned this !! id) as [v |] eqn:Hid.
  { by rewrite (assignColor_hit id this v Hid). }
  pose proof (palettes_inv_active colors fallback this Hinv)
    as (Hfb & Hav & Hk0 & Hk & Has).
  destruct (active_fields this) as (Hfb' & Has' & Htp').
  destruct (decide (sampleWOReplace (active this)
                    < len (availableColors (active this)))) as [Hroom | Hfull].
  - destruct (assignColor_room id this Hrange Hid) as (c & array & Hc & Hperm & ->);
      [lia |].
    unfold palettes_inv. simpl. rewrite <- Hfb'.
    split; [done |]. split; [by rewrite Hperm |]. split; [lia |].
    split; [left; unfold len in *; rewrite Hperm; lia |].
    intros id' v. destruct (decide (id = id')) as [<- | Hne].
    + rewrite lookup_insert_eq. intros [= <-]. exists c. split; [done |].
      destruct Hav as [Hav | Hav]; rewrite Hav in Hc; auto.
    + rewrite lookup_insert_ne by done. rewrite <- Has'. apply Has.
  - destruct (assignColor_no_room id this Hid) as (e & ->); [lia |].
    unfold palettes_inv. simpl.
    split; [done |]. split; [done |]. split; [lia |]. split; [| done].
    right. destruct Hk as [Hk | Hk]; [| done].
    unfold active in *. case_decide.
    + unfold recycled in *. simpl in *. rewrite <- Hfb.
      destruct (fallbackColors this); [done |].
      rewrite len_cons in Hfull. pose proof (len_nonneg l). lia.
    + lia.
Qed.

Lemma palettes_inv_reachable `{Imports} (colors fallback : list Colord)
    (history : list Call) :
  (forall rand lo hi, lo < hi -> lo <= nextInt rand lo hi < hi) ->
  palettes_inv colors fallback (afterAll history (constructor colors fallback)).
Proof.
  intros Hrange.
  apply (afterAll_preserves (palettes_inv colors fallback)).
  - by intros this v.
  - intros id this. by apply palettes_inv_assignColor.
  - unfold palettes_inv, constructor. simpl.
    split; [done |]. split; [by left |]. split; [done |].
    split; [left; apply len_nonneg |]. intros id v Hv.
    by rewrite lookup_empty in Hv.
Qed.

Lemma assignColor_raises_iff `{Imports} (colors fallback : list Colord)
    (id : string) (this : ColorAllocator) :
  (forall rand lo hi, lo < hi -> lo <= nextInt rand lo hi < hi) ->
  palettes_inv colors fallback this ->
  raises (assignColor id this).1 <->
  assigned this !! id = None /\ fallback = [] /\
  len (availableColors this) <= sampleWOReplace this.
Proof.
  intros Hrange Hinv.
  pose proof Hinv as (Hfb0 & _ & Hk00 & Hk0' & _).
  pose proof (palettes_inv_active colors fallback this Hinv)
    as (Hfb & Hav & Hk0 & Hk & Has).
  split.
  - destruct (assigned this !! id) as [v |] eqn:Hid.
    { rewrite (assignColor_hit id this v) by done. done. }
    destruct (decide (sampleWOReplace (active this)
                      < len (availableColors (active this)))) as [Hroom | Hfull].
    + destruct (assignColor_room id this Hrange Hid) as (c & array & _ & _ & ->);
        [lia | done].
    + intros _. split; [done |]. unfold active in *. case_decide.
      * unfold recycled in *. simpl in *. split; [| lia].
        rewrite <- Hfb0. destruct (fallbackColors this); [done |].
        rewrite len_cons in Hfull. pose proof (len_nonneg l). lia.
      * split; [| lia]. destruct Hk0' as [? | ?]; [lia | done].
  - intros (Hid & Hempty & Hfull).
    destruct (assignColor_no_room id this Hid) as (e & ->); [| done].
    unfold active. case_decide; [| done].
    unfold recycled. simpl. rewrite Hfb0, Hempty. done.
Qed.

(** Whatever calls a new allocator has gone through (the generator drawing
    within the range asked for): the fallback palette is the one it was built
    with; the active palette is a rearrangement of the primary or of the
    fallback palette; the cursor is not negative and, with a non-empty
    fallback palette, not beyond the length of the active palette; and every
    value in the assignment table is a color of one of the two palettes,
    never [undefined]. *)
Theorem allocator_invariant `{Imports} (colors fallback : list Colord)
    (history : list Call) :
  (forall rand lo hi, lo < hi -> lo <= nextInt rand lo hi < hi) ->
  let this := afterAll history (constructor colors fallback) in
  fallbackColors this = fallback /\
  (availableColors this ≡ₚ colors \/ availableColors this ≡ₚ fallback) /\
  0 <= sampleWOReplace this /\
  (fallback <> [] -> sampleWOReplace this <= len (availableColors this)) /\
  (forall id v, assigned this !! id = Some v ->
     exists c, v = Some c /\ (c ∈ colors \/ c ∈ fallback)).
Proof.
  intros Hrange this.
  destruct (palettes_inv_reachable colors fallback history Hrange)
    as (Hfb & Hav & Hk0 & Hk & Has).
  repeat split; try done.
  intros Hne. by destruct Hk.
Qed.

Lemma allocator_invariant_witness :
  let colors : list RgbaColor := [Sample.crimson; Sample.navy] in
  let fallback : list RgbaColor := [Sample.silver; Sample.olive] in
  let this := @afterAll Sample.imports
                [CallAssignColor "ann"; CallAssignTeamColor "Wolves";
                 CallAssignTeamPlayerColor "Pack" "p1"; CallAssignColor "cy"]
                (@constructor Sample.imports colors fallback) in
  fallbackColors this = fallback /\
  (availableColors this ≡ₚ colors \/ availableColors this ≡ₚ fallback) /\
  0 <= sampleWOReplace this /\
  (fallback <> [] -> sampleWOReplace this <= len (availableColors this)) /\
  (forall id v, assigned this !! id = Some v ->
     exists c, v = Some c /\ (c ∈ colors \/ c ∈ fallback)).
Proof.
  apply (@allocator_invariant Sample.imports).
  intros rand lo hi. apply Sample.draw_range.
Defined.

(** On an allocator taken from construction through any calls,
    [assignColor(id)] throws exactly when [id] has no color yet, the
    fallback palette is empty and the cursor has reached the length of the
    active palette. *)
Theorem assignColor_throws_iff `{Imports} (colors fallback : list Colord)
    (history : list Call) (id : string) :
  (forall rand lo hi, lo < hi -> lo <= nextInt rand lo hi < hi) ->
  let this := afterAll history (constructor colors fallback) in
  raises (assignColor id this).1 <->
  assigned this !! id = None /\ fallback = [] /\
  len (availableColors this) <= sampleWOReplace this.
Proof.
  intros Hrange this.
  apply (assignColor_raises_iff colors fallback); [done |].
  by apply palettes_inv_reachable.
Qed.

Lemma assignColor_throws_iff_witness :
  let this := @afterAll Sample.imports
                [CallAssignColor "ann"; CallAssignColor "bob"]
                (@constructor Sample.imports [Sample.crimson; Sample.navy] []) in
  raises (@assignColor Sample.imports "cy" this).1 <->
  assigned this !! "cy" = None /\ ([] : list RgbaColor) = [] /\
  len (availableColors this) <= sampleWOReplace this.
Proof.
  apply (@assignColor_throws_iff Sample.imports [Sample.crimson; Sample.navy] []
           [CallAssignColor "ann"; CallAssignColor "bob"] "cy").
  intros rand lo hi. apply Sample.draw_range.
Defined.

(** With a non-empty fallback palette [assignColor] never throws and never
    returns [undefined], however many identities came before: it returns a
    color of the primary or of the fallback palette. The primary palette may
    be empty. *)
Theorem assignColor_total_with_fallback `{Imports}
    (colors fallback : list Colord) (history : list Call) (id : string) :
  (forall rand lo hi, lo < hi -> lo <= nextInt rand lo hi < hi) ->
  fallback <> [] ->
  exists c,
    (assignColor id (afterAll history (constructor colors fallback))).1
      = Ok (Some c) /\
    (c ∈ colors \/ c ∈ fallback).
Proof.
  intros Hrange Hne.
  set (this := afterAll history (constructor colors fallback)).
  pose proof (palettes_inv_reachable colors fallback history Hrange) as Hinv.
  fold this in Hinv.
  pose proof (assignColor_raises_iff colors fallback id this Hrange Hinv) as Hiff.
  pose proof (palettes_inv_assignColor colors fallback id this Hrange Hinv)
    as (_ & _ & _ & _ & Has).
  pose proof (assignColor_records id this) as Hrec.
  destruct (assignColor id this) as [[v | e] this']; simpl in *.
  - destruct (Has id v (Hrec v eq_refl)) as (c & -> & Hc). by exists c.
  - exfalso. destruct Hiff as [Hiff _]. by destruct (Hiff I) as (_ & ? & _).
Qed.

Lemma assignColor_total_with_fallback_witness :
  exists c : RgbaColor,
    (@assignColor Sample.imports "dee"
       (afterAll [CallAssignColor "ann"; CallAssignColor "bob";
                  CallAssignColor "cy"]
          (@constructor Sample.imports [] [Sample.silver; Sample.olive]))).1
      = Ok (Some c) /\
    (c ∈ ([] : list RgbaColor) \/ c ∈ [Sample.silver; Sample.olive]).
Proof.
  apply (@assignColor_total_with_fallback Sample.imports []
           [Sample.silver; Sample.olive]).
  - intros rand lo hi. apply Sample.draw_range.
  - discriminate.
Defined.

(** With an empty fallback palette, an allocator whose cursor has reached the
    length of its active palette stays so through any calls, whatever the
    generator does: [assignColor] for an identity without a color throws,
    records nothing in the assignment table, and leaves the cursor beyond
    the length of the active palette. *)
Theorem assignColor_exhausted_for_good `{Imports} (this : ColorAllocator)
    (history : list Call) (id : string) :
  fallbackColors this = [] ->
  len (availableColors this) <= sampleWOReplace this ->
  let this' := afterAll history this in
  fallbackColors this' = [] /\
  len (availableColors this') <= sampleWOReplace this' /\
  (assigned this' !! id = None ->
   raises (assignColor id this').1 /\
   assigned (assignColor id this').2 = assigned this' /\
   len (availableColors (assignColor id this').2)
     < sampleWOReplace (assignColor id this').2).
Proof.
  intros Hfb Hfull this'.
  set (P := fun st : ColorAllocator =>
              fallbackColors st = [] /\
              len (availableColors st) <= sampleWOReplace st).
  assert (Hstep : forall id0 st, P st -> assigned st !! id0 = None ->
            raises (assignColor id0 st).1 /\
            assigned (assignColor id0 st).2 = assigned st /\
            fallbackColors (assignColor id0 st).2 = [] /\
            len (availableColors (assignColor id0 st).2)
              < sampleWOReplace (assignColor id0 st).2).
  { intros id0 st [Hst1 Hst2] Hnew.
    assert (Hact : fallbackColors (active st) = [] /\
                   len (availableColors (active st))
                   <= sampleWOReplace (active st)).
    { unfold active. case_decide; [| done].
      unfold recycled. simpl. by rewrite Hst1. }
    destruct (assignColor_no_room id0 st Hnew) as (e & ->); [apply Hact |].
    simpl. destruct (active_fields st) as (_ & -> & _).
    destruct Hact as [-> ?]. repeat split; try done. lia. }
  assert (HP : P this').
  { apply (afterAll_preserves P); [by intros st v | | by split].
    intros id0 st HPst.
    destruct (assigned st !! id0) as [v |] eqn:Hid0.
    - by rewrite (assignColor_hit id0 st v Hid0).
    - destruct (Hstep id0 st HPst Hid0) as (_ & _ & ? & ?). split; [done | lia]. }
  destruct HP as [HP1 HP2]. split; [done |]. split; [done |].
  intros Hnew. destruct (Hstep id this' (conj HP1 HP2) Hnew) as (? & ? & _ & ?).
  done.
Qed.

Lemma assignColor_exhausted_for_good_witness :
  let this' := @afterAll Sample.imports
                 [CallAssignColor "ann"; CallAssignTeamColor "Wolves"]
                 (@constructor Sample.imports [] []) in
  fallbackColors this' = [] /\
  len (availableColors this') <= sampleWOReplace this' /\
  (assigned this' !! "bob" = None ->
   raises (@assignColor Sample.imports "bob" this').1 /\
   assigned (@assignColor Sample.imports "bob" this').2 = assigned this' /\
   len (availableColors (@assignColor Sample.imports "bob" this').2)
     < sampleWOReplace (@assignColor Sample.imports "bob" this').2).
Proof.
  apply (@assignColor_exhausted_for_good Sample.imports
           (@constructor Sample.imports [] [])
           [CallAssignColor "ann"; CallAssignTeamColor "Wolves"] "bob").
  - reflexivity.
  - unfold len. simpl. lia.
Defined.

(** ** The allocator: passes through the fallback palette *)

(** From an allocator whose cursor equals the length of its active palette,
    as many pairwise-distinct new identities as the fallback palette has
    colors receive exactly the colors of the fallback palette, each once,
    and the cursor again equals the length of the active palette: after the
    primary palette, colors are handed out in complete passes through the
    fallback palette. *)
Theorem assignColors_fallback_pass `{Imports} (this : ColorAllocator)
    (ids : list string) :
  (forall rand lo hi, lo < hi -> lo <= nextInt rand lo hi < hi) ->
  sampleWOReplace this = len (availableColors this) ->
  NoDup ids ->
  (forall id, id ∈ ids -> assigned this !! id = None) ->
  length ids = length (fallbackColors this) ->
  exists cs,
    (assignColors ids this).1 = Ok (Some <$> cs) /\
    cs ≡ₚ fallbackColors this /\
    sampleWOReplace (assignColors ids this).2
      = len (availableColors (assignColors ids this).2) /\
    fallbackColors (assignColors ids this).2 = fallbackColors this.
Proof.
  intros Hrange Hfull Hnd Hfresh Hlen.
  destruct ids as [| id ids].
  { exists []. simpl. repeat split; try done.
    symmetry in Hlen. apply length_zero_iff_nil in Hlen. by rewrite Hlen. }
  assert (Hrec : assignColors (id :: ids) this
                 = assignColors (id :: ids) (recycled this)).
  { simpl. rewrite (assignColor_exhausted id this); [done | | done].
    apply Hfresh, list_elem_of_here. }
  rewrite Hrec.
  destruct (assignColors_draws (id :: ids) Hrange (recycled this)
              (fallbackColors this) [] Hnd)
    as (cs & unused' & Hres & Hlcs & Hperm & Hav & Hk & Hfb); try done.
  { simpl. by rewrite app_nil_r. }
  { lia. }
  assert (unused' = []) as ->.
  { apply Permutation_length in Hperm. rewrite length_app in Hperm.
    apply length_zero_iff_nil. lia. }
  rewrite app_nil_r in Hperm. exists cs. repeat split; try done.
  rewrite Hk, Hav. unfold len. simpl.
  rewrite !app_nil_r, length_reverse. lia.
Qed.

Lemma assignColors_fallback_pass_witness :
  let this := (@assignColors Sample.imports ["ann"; "bob"]
                 (@constructor Sample.imports [Sample.crimson; Sample.navy]
                    [Sample.silver; Sample.olive; Sample.black])).2 in
  exists cs : list RgbaColor,
    (@assignColors Sample.imports ["cy"; "dee"; "eve"] this).1
      = Ok (Some <$> cs) /\
    cs ≡ₚ fallbackColors this /\
    sampleWOReplace (@assignColors Sample.imports ["cy"; "dee"; "eve"] this).2
      = len (availableColors
               (@assignColors Sample.imports ["cy"; "dee"; "eve"] this).2) /\
    fallbackColors (@assignColors Sample.imports ["cy"; "dee"; "eve"] this).2
      = fallbackColors this.
Proof.
  apply (@assignColors_fallback_pass Sample.imports).
  - intros rand lo hi. apply Sample.draw_range.
  - vm_compute. reflexivity.
  - compute_done.
  - intros id Hin.
    repeat (apply elem_of_cons in Hin as [-> | Hin]; [vm_compute; reflexivity |]).
    by apply elem_of_nil in Hin.
  - reflexivity.
Defined.

(** ** The allocator: teams *)

(** For a team that is not listed, once [assignTeamColor(team)] has returned
    a color, then after any further calls it returns that color again and
    changes nothing: the draw happens once per team. *)
Theorem assignTeamColor_unlisted_stable `{Imports} (team : Team)
    (this : ColorAllocator) (c : Colord) (history : list Call) :
  fixedTeamColors team = None ->
  (assignTeamColor team this).1 = Ok c ->
  let this' := afterAll history (assignTeamColor team this).2 in
  assignTeamColor team this' = (Ok c, this').
Proof.
  intros Hun Hfirst this'.
  assert (Hentry : exists c0, assigned this' !! team = Some (Some c0) /\
                              c = colord (roundRgb (toRgb c0))).
  { unfold this'. revert Hfirst. unfold assignTeamColor.
    rewrite (getTeamColorVariations_unlisted team this Hun).
    pose proof (assignColor_records team this) as Hrec.
    destruct (assignColor team this) as [[[c0 |] | e] this1]; simpl in *;
      try done.
    intros [= <-]. exists c0. split; [| done].
    apply afterAll_keeps. by apply Hrec. }
  destruct Hentry as (c0 & Hc0 & ->).
  unfold assignTeamColor.
  rewrite (getTeamColorVariations_unlisted team this' Hun).
  by rewrite (assignColor_hit team this' (Some c0) Hc0).
Qed.

Lemma assignTeamColor_unlisted_stable_witness :
  let this := @constructor Sample.imports [Sample.crimson; Sample.navy]
                [Sample.silver] in
  let this' := @afterAll Sample.imports
                 [CallAssignColor "ann"; CallAssignColor "bob";
                  CallAssignColor "cy"]
                 (@assignTeamColor Sample.imports "Wolves" this).2 in
  @assignTeamColor Sample.imports "Wolves" this' = (Ok Sample.crimson, this').
Proof.
  apply (@assignTeamColor_unlisted_stable Sample.imports "Wolves").
  - reflexivity.
  - vm_compute. reflexivity.
Defined.

(** For a team that is not listed, once [assignTeamPlayerColor] has returned
    for one new player of the team, then after any further calls every other
    new player of the team gets that same value, whatever the players'
    hashes, and it is the value [assignColor(team)] returns: the players of
    such a team share the team's color. *)
Theorem assignTeamPlayerColor_unlisted_shared `{Imports} (team : Team)
    (player1 player2 : string) (this : ColorAllocator) (v : value)
    (history : list Call) :
  fixedTeamColors team = None ->
  teamPlayerColors this !! player1 = None ->
  (assignTeamPlayerColor team player1 this).1 = Ok v ->
  let this' := afterAll history (assignTeamPlayerColor team player1 this).2 in
  teamPlayerColors this' !! player2 = None ->
  (assignTeamPlayerColor team player2 this').1 = Ok v /\
  (assignColor team this').1 = Ok v.
Proof.
  intros Hun Hnew1 Hfirst this' Hnew2.
  assert (Hone : forall (w : value) (h : Z),
            mjoin (array_get [w] (h `rem` len [w])) = w).
  { intros w h. unfold len. simpl. rewrite Z.rem_1_r. done. }
  assert (Hentry : assigned this' !! team = Some v).
  { unfold this'. revert Hfirst. unfold assignTeamPlayerColor. rewrite Hnew1.
    rewrite (getTeamColorVariations_unlisted team this Hun).
    pose proof (assignColor_records team this) as Hrec.
    destruct (assignColor team this) as [[v0 | e] this1]; simpl in Hrec |- *;
      [| done].
    rewrite Hone. intros [= <-]. apply afterAll_keeps. simpl. by apply Hrec. }
  rewrite (assignColor_hit team this' v Hentry). split; [| done].
  unfold assignTeamPlayerColor. rewrite Hnew2.
  rewrite (getTeamColorVariations_unlisted team this' Hun).
  rewrite (assignColor_hit team this' v Hentry). simpl.
  by rewrite Hone.
Qed.

Lemma assignTeamPlayerColor_unlisted_shared_witness :
  let this := @constructor Sample.imports [Sample.crimson; Sample.navy]
                [Sample.silver] in
  let this' := @afterAll Sample.imports [CallAssignColor "ann"]
                 (@assignTeamPlayerColor Sample.imports "Wolves" "p1" this).2 in
  (@assignTeamPlayerColor Sample.imports "Wolves" "p22" this').1
    = Ok (Some Sample.crimson) /\
  (@assignColor Sample.imports "Wolves" this').1 = Ok (Some Sample.crimson).
Proof.
  apply (@assignTeamPlayerColor_unlisted_shared Sample.imports "Wolves" "p1").
  - reflexivity.
  - reflexivity.
  - vm_compute. reflexivity.
  - vm_compute. reflexivity.
Defined.

(** For a listed team with a non-empty table and a player without a color
    whose hash is not negative, [assignTeamPlayerColor] returns the table's
    color at the hash modulo the table's length, and the only thing it
    changes is the team-player table: palettes, cursor and assignment table
    are as before, so listed teams never use up allocator colors. *)
Theorem assignTeamPlayerColor_listed `{Imports} (team : Team)
    (table : list Colord) (playerId : string) (this : ColorAllocator) :
  fixedTeamColors team = Some table ->
  table <> [] ->
  0 <= simpleHash playerId ->
  teamPlayerColors this !! playerId = None ->
  exists c,
    table !! Z.to_nat (simpleHash playerId `mod` len table) = Some c /\
    c ∈ table /\
    assignTeamPlayerColor team playerId this =
      (Ok (Some c),
       set_teamPlayerColors (<[playerId := Some c]> (teamPlayerColors this))
                            this).
Proof.
  intros Hlisted Hne Hhash Hnew.
  assert (Hlen : 0 < len table).
  { unfold len. destruct table; [done | simpl; lia]. }
  pose proof (Z.mod_pos_bound (simpleHash playerId) (len table) Hlen) as Hb.
  destruct (lookup_lt_is_Some_2 table
              (Z.to_nat (simpleHash playerId `mod` len table)))
    as [c Hc]; [unfold len in *; lia |].
  exists c. split; [done |]. split; [by eapply list_elem_of_lookup_2 |].
  unfold assignTeamPlayerColor. rewrite Hnew.
  rewrite (getTeamColorVariations_listed team table this Hlisted).
  assert (Hentry : mjoin (js_rem (simpleHash playerId) (len (Some <$> table))
                          ≫= array_get (Some <$> table)) = Some c).
  { unfold js_rem, len. rewrite length_fmap. fold (len table).
    rewrite decide_False by lia. simpl.
    rewrite Z.rem_mod_nonneg by lia.
    rewrite array_get_lookup by lia.
    by rewrite list_lookup_fmap, Hc. }
  by rewrite Hentry.
Qed.

Lemma assignTeamPlayerColor_listed_witness :
  let this := @constructor Sample.imports [Sample.crimson] [Sample.silver] in
  exists c : RgbaColor,
    [Sample.navy; Sample.olive]
      !! Z.to_nat (Sample.hash "p2" `mod` len [Sample.navy; Sample.olive])
      = Some c /\
    c ∈ [Sample.navy; Sample.olive] /\
    @assignTeamPlayerColor Sample.imports "Teal" "p2" this =
      (Ok (Some c),
       set_teamPlayerColors (<["p2" := Some c]> (teamPlayerColors this)) this).
Proof.
  apply (@assignTeamPlayerColor_listed Sample.imports "Teal"
           [Sample.navy; Sample.olive] "p2").
  - reflexivity.
  - discriminate.
  - vm_compute. discriminate.
  - reflexivity.
Defined.

(** For a listed team whose table is empty, [assignTeamPlayerColor] does not
    throw: it returns [undefined] and stores it, so that every later call
    for that player, with any team, returns [undefined] too. *)
Theorem assignTeamPlayerColor_empty_table `{Imports} (team : Team)
    (playerId : string) (this : ColorAllocator) :
  fixedTeamColors team = Some [] ->
  teamPlayerColors this !! playerId = None ->
  assignTeamPlayerColor team playerId this =
    (Ok None,
     set_teamPlayerColors (<[playerId := None]> (teamPlayerColors this)) this) /\
  (forall (history : list Call) (team' : Team),
     let this' := afterAll history (assignTeamPlayerColor team playerId this).2 in
     assignTeamPlayerColor team' playerId this' = (Ok None, this')).
Proof.
  intros Hlisted Hnew.
  assert (Hcall : assignTeamPlayerColor team playerId this =
            (Ok None,
             set_teamPlayerColors (<[playerId := None]> (teamPlayerColors this))
                                  this)).
  { unfold assignTeamPlayerColor. rewrite Hnew.
    by rewrite (getTeamColorVariations_listed team [] this Hlisted). }
  split; [done |]. intros history team'. rewrite Hcall. simpl.
  match goal with |- context [afterAll history ?st] =>
    set (this' := afterAll history st) end.
  assert (Hkept : teamPlayerColors this' !! playerId = Some None).
  { apply afterAll_keeps. simpl. by rewrite lookup_insert_eq. }
  unfold assignTeamPlayerColor. by rewrite Hkept.
Qed.

Lemma assignTeamPlayerColor_empty_table_witness :
  let imports :=
    {| Colord := RgbaColor; toRgb := fun c => c; toLab := Sample.lab;
       colord := fun c => c; Color := list Q;
       Color_new := fun _ coords => coords;
       Color_deltaE := fun c1 c2 _ => Sample.distance c1 c2;
       simpleHash := Sample.hash; PseudoRandom := Z;
       PseudoRandom_new := fun seed => seed; nextInt := Sample.draw;
       ColoredTeams := Sample.teams;
       blueTeamColors := [Sample.navy]; botTeamColors := [];
       greenTeamColors := [Sample.olive]; orangeTeamColors := [];
       purpleTeamColors := []; redTeamColors := [Sample.crimson];
       tealTeamColors := []; yellowTeamColors := [] |} in
  let this := @constructor imports [Sample.crimson] [Sample.silver] in
  @assignTeamPlayerColor imports "Bot" "p1" this =
    (Ok None,
     set_teamPlayerColors (<["p1" := None]> (teamPlayerColors this)) this) /\
  (forall (history : list Call) (team' : Team),
     let this' := @afterAll imports history
                    (@assignTeamPlayerColor imports "Bot" "p1" this).2 in
     @assignTeamPlayerColor imports team' "p1" this' = (Ok None, this')).
Proof.
  intros imports this.
  apply (@assignTeamPlayerColor_empty_table imports "Bot" "p1" this);
    reflexivity.
Defined.

(** No call of a public method changes the fallback palette, and of the
    three only [assignTeamPlayerColor] writes the team-player table. *)
Theorem calls_frame `{Imports} (history : list Call) (this : ColorAllocator) :
  fallbackColors (afterAll history this) = fallbackColors this /\
  (Forall (fun c => forall team playerId,
              c <> CallAssignTeamPlayerColor team playerId) history ->
   teamPlayerColors (afterAll history this) = teamPlayerColors this).
Proof.
  split; [apply afterAll_keeps |].
  revert this. induction history as [| c history IH]; intros this Hall;
    simpl; [done |].
  apply Forall_cons in Hall as [Hc Hall]. rewrite IH by done.
  destruct c as [id | team | team playerId]; simpl.
  - apply assignColor_frame.
  - apply assignTeamColor_frame.
  - by destruct (Hc team playerId).
Qed.
